(** * Download job orchestrator: record store, strategy executors, pipeline

    A shallow embedding of the server side of the YouTube video downloader:
    - [shared/schema.ts]: the [downloads] row type, [insertDownloadSchema]
      and [videoAnalysisSchema];
    - [server/storage.ts]: [MemStorage] ([createDownload], [getDownload],
      [updateDownload]);
    - [server/routes.ts]: the handlers [POST /api/download] and
      [GET /api/download/:id/file], the three strategy executors
      [tryYtdlCore], [tryYoutubeDlExec], [tryEnhancedYtDlp] and the driver
      [downloadWithMultipleStrategies].

    JavaScript values are modelled as the code has them: a record field that
    may be [undefined] or [null] is a [js], a [Partial<Download>] is a record
    of optional fields, the [Map] of [MemStorage] is a [gmap] keyed by the
    record id.  An [async] function is a state transformer over the [World]
    (the store and the list of store states an observer could have polled)
    whose completion is a value, an exception or no completion at all.  The
    libraries and tools behind the executors (ytdl-core, youtube-dl-exec,
    the yt-dlp child process, the file system) are not part of the program:
    what they do in one run is an input of the model. *)

From Stdlib Require Import ZArith NArith String Ascii Bool List.
From Stdlib Require Import DecimalString.
From stdpp Require Import base option list gmap strings sorting.

Local Open Scope string_scope.
Local Open Scope list_scope.
Local Set Warnings "-register-all".

(** ** JavaScript values *)

(** A field of type [T | null] that can also be missing from the object. *)
Inductive js (A : Type) : Type :=
| Undefined
| Null
| Val (a : A).
Arguments Undefined {A}.
Arguments Null {A}.
Arguments Val {A} a.


(** A JavaScript [number] as the progress computation can produce it. *)
Inductive number : Type :=
| Num (z : Z)
| NaN
| Infinity.

(** The value of [req.body] after JSON decoding. *)
Inductive json : Type :=
| JNull
| JBool (b : bool)
| JNumber (z : Z)
| JString (s : string)
| JArray (items : list json)
| JObject (props : list (string * json)).

(** [obj[key]] on a decoded body: [None] stands for [undefined]. *)
Fixpoint own_property (key : string) (props : list (string * json)) : option json :=
  match props with
  | [] => None
  | (k, v) :: rest => if String.eqb k key then Some v else own_property key rest
  end.

(** ** shared/schema.ts *)

Module Schema.

(** [status: text("status")], with the four values the code writes
    ("pending, downloading, completed, failed"). *)
Inductive Status : Type := pending | downloading | completed | failed.

#[global] Instance Status_eq_dec : EqDecision Status.
Proof. solve_decision. Defined.

(** [typeof downloads.$inferSelect], as [MemStorage] builds it. *)
Record Download : Type := mkDownload {
  id : string;
  youtubeUrl : string;
  title : string;
  duration : js string;
  thumbnail : js string;
  channel : js string;
  views : js string;
  publishDate : js string;
  format : js string;
  status : Status;
  progress : js number;
  filePath : js string;
  createdAt : js Z;
}.

(** [z.infer<typeof insertDownloadSchema>]: the eight picked columns. *)
Record InsertDownload : Type := mkInsertDownload {
  ins_youtubeUrl : string;
  ins_title : string;
  ins_duration : js string;
  ins_thumbnail : js string;
  ins_channel : js string;
  ins_views : js string;
  ins_publishDate : js string;
  ins_format : js string;
}.

(** [Partial<Download>]: [None] is a key the object literal does not have. *)
Record Updates : Type := mkUpdates {
  u_id : option string;
  u_youtubeUrl : option string;
  u_title : option string;
  u_duration : option (js string);
  u_thumbnail : option (js string);
  u_channel : option (js string);
  u_views : option (js string);
  u_publishDate : option (js string);
  u_format : option (js string);
  u_status : option Status;
  u_progress : option (js number);
  u_filePath : option (js string);
  u_createdAt : option (js Z);
}.

(** The three object literals the routes pass to [updateDownload]. *)
Definition status_progress (s : Status) (p : Z) : Updates :=
  mkUpdates None None None None None None None None None
            (Some s) (Some (Val (Num p))) None None.

Definition progress_only (p : number) : Updates :=
  mkUpdates None None None None None None None None None
            None (Some (Val p)) None None.

Definition completion (path : string) : Updates :=
  mkUpdates None None None None None None None None None
            (Some completed) (Some (Val (Num 100))) (Some (Val path)) None.

(** *** Validation of a column by the schema derived from the table *)

(** [text(..).notNull()] without default: [z.string()]. *)
Definition required_string (v : option json) : option string :=
  match v with
  | Some (JString s) => Some s
  | _ => None
  end.

(** [text(..)] nullable: [z.string().nullable().optional()]. *)
Definition optional_nullable_string (v : option json) : option (js string) :=
  match v with
  | None => Some Undefined
  | Some JNull => Some Null
  | Some (JString s) => Some (Val s)
  | Some _ => None
  end.

(** [text(..).notNull().default(..)]: [z.string().optional()]. *)
Definition optional_string (v : option json) : option (js string) :=
  match v with
  | None => Some Undefined
  | Some (JString s) => Some (Val s)
  | Some _ => None
  end.

(** [insertDownloadSchema.parse(body)]: [None] is a thrown [ZodError].
    Keys outside the pick are dropped. *)
Definition insertDownloadSchema_parse (body : json) : option InsertDownload :=
  match body with
  | JObject props =>
      url ← required_string (own_property "youtubeUrl" props);
      ttl ← required_string (own_property "title" props);
      dur ← optional_nullable_string (own_property "duration" props);
      thb ← optional_nullable_string (own_property "thumbnail" props);
      chn ← optional_nullable_string (own_property "channel" props);
      vws ← optional_nullable_string (own_property "views" props);
      pub ← optional_nullable_string (own_property "publishDate" props);
      fmt ← optional_string (own_property "format" props);
      Some (mkInsertDownload url ttl dur thb chn vws pub fmt)
  | _ => None
  end.

(** [url.includes(needle)]. *)
Fixpoint includes (needle hay : string) : bool :=
  String.prefix needle hay ||
  match hay with
  | EmptyString => false
  | String _ rest => includes needle rest
  end.

(** The refinement of [videoAnalysisSchema]: the accepted source-site
    pattern. *)
Definition youtube_pattern (url : string) : bool :=
  includes "youtube.com/watch" url || includes "youtu.be/" url.

(** [videoAnalysisSchema] on the [url] key: [z.string().url()] followed by
    the refinement.  [is_url] is zod's URL syntax check. *)
Definition videoAnalysisSchema_accepts (is_url : string → bool) (url : string) : bool :=
  is_url url && youtube_pattern url.

End Schema.
Export Schema.

(** ** server/storage.ts: MemStorage *)

Module MemStorage.

(** [{ ...download, ...updates }]: a key present in [updates] overrides. *)
Definition override {A} (old : A) (new : option A) : A :=
  match new with Some a => a | None => old end.

Definition spread (d : Download) (u : Updates) : Download :=
  {| id := override (id d) (u_id u);
     youtubeUrl := override (youtubeUrl d) (u_youtubeUrl u);
     title := override (title d) (u_title u);
     duration := override (duration d) (u_duration u);
     thumbnail := override (thumbnail d) (u_thumbnail u);
     channel := override (channel d) (u_channel u);
     views := override (views d) (u_views u);
     publishDate := override (publishDate d) (u_publishDate u);
     format := override (format d) (u_format u);
     status := override (status d) (u_status u);
     progress := override (progress d) (u_progress u);
     filePath := override (filePath d) (u_filePath u);
     createdAt := override (createdAt d) (u_createdAt u) |}.

(** [createDownload]: [uuid] is the result of [randomUUID()], [now] of
    [new Date()]. *)
Definition createDownload (uuid : string) (now : Z) (ins : InsertDownload)
    (downloads : gmap string Download) : Download * gmap string Download :=
  let download :=
    {| id := uuid;
       youtubeUrl := ins_youtubeUrl ins;
       title := ins_title ins;
       duration := ins_duration ins;
       thumbnail := ins_thumbnail ins;
       channel := ins_channel ins;
       views := ins_views ins;
       publishDate := ins_publishDate ins;
       format := ins_format ins;
       status := pending;
       progress := Val (Num 0);
       filePath := Null;
       createdAt := Val now |} in
  (download, <[uuid := download]> downloads).

Definition getDownload (key : string) (downloads : gmap string Download) : option Download :=
  downloads !! key.

(** [updateDownload]: [None] is the [undefined] returned for a missing id. *)
Definition updateDownload (key : string) (updates : Updates)
    (downloads : gmap string Download) : option Download * gmap string Download :=
  match downloads !! key with
  | None => (None, downloads)
  | Some download =>
      let updatedDownload := spread download updates in
      (Some updatedDownload, <[key := updatedDownload]> downloads)
  end.

End MemStorage.

(** ** Asynchronous computations over the store *)

(** The store together with every state it has been in since observation
    began: one entry per [Map.set], oldest first.  A poll of
    [GET /api/download/:id] between two steps sees one of these. *)
Record World : Type := mkWorld {
  downloads : gmap string Download;
  observed : list (gmap string Download);
}.

(** How the promise of an [async] call ends: fulfilled, rejected (or a
    synchronous [throw]), or never settled. *)
Inductive Completion (A : Type) : Type :=
| Returns (a : A)
| Throws
| Pending.
Arguments Returns {A} a.
Arguments Throws {A}.
Arguments Pending {A}.

Definition Async (A : Type) : Type := World → Completion A * World.

#[global] Instance Async_ret : MRet Async := λ A a w, (Returns a, w).

#[global] Instance Async_bind : MBind Async := λ A B k m w,
  match m w with
  | (Returns a, w') => k a w'
  | (Throws, w') => (Throws, w')
  | (Pending, w') => (Pending, w')
  end.

Definition throw {A} : Async A := λ w, (Throws, w).
Definition never {A} : Async A := λ w, (Pending, w).

(** [try { body } catch (error) { handler }]. *)
Definition try_catch {A} (body handler : Async A) : Async A := λ w,
  match body w with
  | (Throws, w') => handler w'
  | r => r
  end.

(** What a [return] inside an [async] function hands over: a plain value,
    or a promise that is not awaited at the [return]. *)
Inductive Returned (A : Type) : Type :=
| Value (a : A)
| Promise (p : Async A).
Arguments Value {A} a.
Arguments Promise {A} p.

(** The promise of the [async] function follows the returned promise; this
    happens after the function body, outside its [try] block. *)
Definition settle {A} (m : Async (Returned A)) : Async A :=
  r ← m;
  match r with
  | Value a => mret a
  | Promise p => p
  end.

(** [storage.updateDownload(id, updates)] on the shared [storage] object;
    a write is recorded as a new observable state. *)
Definition storage_updateDownload (key : string) (updates : Updates)
    : Async (option Download) := λ w,
  match MemStorage.updateDownload key updates (downloads w) with
  | (Some d, m) => (Returns (Some d), mkWorld m (observed w ++ [m]))
  | (None, _) => (Returns None, w)
  end.

(** [storage.createDownload(insertDownload)]. *)
Definition storage_createDownload (uuid : string) (now : Z) (ins : InsertDownload)
    : Async Download := λ w,
  let '(d, m) := MemStorage.createDownload uuid now ins (downloads w) in
  (Returns d, mkWorld m (observed w ++ [m])).

(** ** The mechanisms behind the executors *)

Module Mechanism.

(** [ytdl.chooseFormat(info.formats, ..)]. *)
Inductive FormatChoice : Type :=
| ChooseThrows
| NoFormat
| Chosen (container : string).

(** [await ytdl.getInfo(url)]. *)
Inductive Info : Type :=
| InfoRejected
| InfoPending
| InfoResolved (choice : FormatChoice).

(** The event that ends the piped download of [ytdl(url)] into the write
    stream, if any.  Nothing is emitted after it. *)
Inductive Ending : Type :=
| Finish
| StreamError
| WriteError
| Stalled.

(** [await youtubedl(url, options)]: a nonzero exit rejects. *)
Inductive Exec : Type :=
| ExecResolved
| ExecRejected
| ExecPending.

(** [spawn("yt-dlp", args)] and the life of the child: [spawn] throws
    synchronously, the child cannot be started ('error', then 'close' with
    a negative code), it closes with an exit code ([None] is [null], a
    child killed by a signal), or it never closes. *)
Inductive Child : Type :=
| SpawnThrows
| SpawnFailed
| Closed (code : option Z)
| NeverCloses.

Record Env : Type := mkEnv {
  cwd : string;                          (* process.cwd() *)
  outputDir_exists : bool;               (* fs.existsSync(outputDir) *)
  mkdir_throws : bool;                   (* fs.mkdirSync(outputDir, ..) *)
  validateURL : string → bool;           (* ytdl.validateURL *)
  getInfo : Info;
  streams_open : bool;                   (* ytdl(url, ..) and fs.createWriteStream do not throw *)
  progress_events : list (N * N);        (* 'progress': downloaded, total *)
  ending : Ending;
  youtubedl : Exec;
  readdir_after_exec : option (list string);   (* fs.readdirSync(outputDir); None: throws *)
  child : Child;
  readdir_after_close : option (list string);
}.

End Mechanism.
Export Mechanism.

(** ** server/routes.ts *)

Module Routes.

(** *** Helpers of the executors *)

(** [Math.round((downloaded / total) * 100)] on byte counts, as the real
    number rounded half up; a zero [total] gives [NaN] or [Infinity]. *)
Definition percent (downloaded total : N) : number :=
  if (total =? 0)%N then
    if (downloaded =? 0)%N then NaN else Infinity
  else Num ((200 * Z.of_N downloaded + Z.of_N total) / (2 * Z.of_N total)).

(** The classes [\w] and [\s] on code units below 256. *)
Definition is_word (c : ascii) : bool :=
  let n := nat_of_ascii c in
  (((48 <=? n) && (n <=? 57)) || ((65 <=? n) && (n <=? 90))
   || ((97 <=? n) && (n <=? 122)) || (n =? 95))%nat.

Definition is_whitespace (c : ascii) : bool :=
  let n := nat_of_ascii c in
  (((9 <=? n) && (n <=? 13)) || (n =? 32) || (n =? 160))%nat.

(** [.replace(/[^\w\s-]/g, '')]. *)
Fixpoint strip_special (s : string) : string :=
  match s with
  | EmptyString => EmptyString
  | String c rest =>
      if is_word c || is_whitespace c || (nat_of_ascii c =? 45)%nat
      then String c (strip_special rest)
      else strip_special rest
  end.

(** [.replace(/\s+/g, '_')]: [in_run] holds inside a run of whitespace,
    which has already produced its underscore. *)
Fixpoint underscore_runs (in_run : bool) (s : string) : string :=
  match s with
  | EmptyString => EmptyString
  | String c rest =>
      if is_whitespace c then
        if in_run then underscore_runs true rest
        else String "_"%char (underscore_runs true rest)
      else String c (underscore_runs false rest)
  end.

Definition sanitizedTitle (title : string) : string :=
  underscore_runs false (strip_special title).

(** [path.join(process.cwd(), "downloads", name)] for a [name] without
    separators. *)
Definition downloads_path (env : Env) (name : string) : string :=
  cwd env +:+ "/downloads/" +:+ name.

(** [fs.readdirSync(outputDir).filter(f => f.startsWith(sanitizedTitle)
    && !f.startsWith('.'))]. *)
Definition matching_files (prefix : string) (entries : list string) : list string :=
  filter (λ f, String.prefix prefix f && negb (String.prefix "." f) = true) entries.

(** [fs.readdirSync] as a synchronous call that may throw. *)
Definition readdirSync (listing : option (list string)) : Async (list string) :=
  match listing with
  | Some entries => mret entries
  | None => throw
  end.

(** An executor as the pipeline sees it: [() => Promise<boolean>]. *)
Definition Executor : Type := Async bool.

(** *** Strategy 1: ytdl-core *)

(** The 'progress' handler, once per event. *)
Fixpoint on_progress (downloadId : string) (events : list (N * N)) : Async unit :=
  match events with
  | [] => mret ()
  | (downloaded, total) :: later =>
      _ ← storage_updateDownload downloadId (progress_only (percent downloaded total));
      on_progress downloadId later
  end.

(** The body of [new Promise((resolve) => ..)]: the handlers run as the
    events arrive; only [resolve] is ever called. *)
Definition ytdl_download (env : Env) (downloadId outputPath : string) : Async bool :=
  _ ← on_progress downloadId (progress_events env);
  match ending env with
  | Finish =>
      _ ← storage_updateDownload downloadId (completion outputPath);
      mret true
  | StreamError => mret false
  | WriteError => mret false
  | Stalled => never
  end.

Definition ytdl_getInfo (env : Env) : Async FormatChoice :=
  match getInfo env with
  | InfoResolved choice => mret choice
  | InfoRejected => throw
  | InfoPending => never
  end.

(** [ytdl.chooseFormat]: [None] is a falsy result. *)
Definition ytdl_chooseFormat (choice : FormatChoice) : Async (option string) :=
  match choice with
  | Chosen container => mret (Some container)
  | NoFormat => mret None
  | ChooseThrows => throw
  end.

Definition tryYtdlCore (env : Env) (downloadId url format title : string) : Executor :=
  settle (try_catch
    (if negb (validateURL env url) then mret (Value false)
     else
       _ ← storage_updateDownload downloadId (status_progress downloading 10);
       info ← ytdl_getInfo env;
       videoFormat ← ytdl_chooseFormat info;
       match videoFormat with
       | None => mret (Value false)
       | Some container =>
           let outputPath := downloads_path env (sanitizedTitle title +:+ "." +:+ container) in
           _ ← (if streams_open env then mret () else throw);
           mret (Promise (ytdl_download env downloadId outputPath))
       end)
    (mret (Value false))).

(** *** Strategy 2: youtube-dl-exec *)

Definition await_youtubedl (env : Env) : Async unit :=
  match youtubedl env with
  | ExecResolved => mret ()
  | ExecRejected => throw
  | ExecPending => never
  end.

Definition tryYoutubeDlExec (env : Env) (downloadId url format title : string) : Executor :=
  settle (try_catch
    (_ ← storage_updateDownload downloadId (status_progress downloading 20);
     _ ← await_youtubedl env;
     entries ← readdirSync (readdir_after_exec env);
     match matching_files (sanitizedTitle title) entries with
     | file :: _ =>
         _ ← storage_updateDownload downloadId (completion (downloads_path env file));
         mret (Value true)
     | [] => mret (Value false)
     end)
    (mret (Value false))).

(** *** Strategy 3: yt-dlp child process *)

(** The ['close'] handler, an [async] function called by the emitter: an
    exception inside it rejects a promise nobody holds, and [resolve] is
    never called. *)
Definition on_close (env : Env) (downloadId prefix : string) (code : option Z) : Async bool :=
  if bool_decide (code = Some 0%Z) then
    match readdir_after_close env with
    | None => never
    | Some entries =>
        match matching_files prefix entries with
        | file :: _ =>
            _ ← storage_updateDownload downloadId (completion (downloads_path env file));
            mret true
        | [] => mret false
        end
    end
  else mret false.

(** The body of [new Promise((resolve) => { const ytdlp = spawn(..); .. })]:
    an exception thrown by [spawn] rejects the promise. *)
Definition ytdlp_download (env : Env) (downloadId prefix : string) : Async bool :=
  match child env with
  | SpawnThrows => throw
  | SpawnFailed => mret false
  | Closed code => on_close env downloadId prefix code
  | NeverCloses => never
  end.

Definition tryEnhancedYtDlp (env : Env) (downloadId url format title : string) : Executor :=
  settle (try_catch
    (_ ← storage_updateDownload downloadId (status_progress downloading 30);
     mret (Promise (ytdlp_download env downloadId (sanitizedTitle title))))
    (mret (Value false))).

(** *** The pipeline *)

(** What the pipeline itself does besides store writes: calling
    [strategies[i]()] and the pause [setTimeout(resolve, 2000)]. *)
Inductive Step : Type :=
| Invoked (i : nat)
| Delayed (ms : Z).

(** How the [for] loop is left: by the [return] after strategy [i]
    succeeded, by running past the last strategy, or not at all because
    the promise of strategy [i] never settles. *)
Inductive LoopExit : Type :=
| Succeeded (i : nat)
| Exhausted
| Stuck (i : nat).

(** The iterations [i, i+1, ..] of the loop; [rest] is [strategies] from
    index [i] on and [n] is [strategies.length].  A rejected strategy is
    caught and logged like a [false] one. *)
Fixpoint try_from (rest : list Executor) (i n : nat) (w : World)
    : LoopExit * World * list Step :=
  match rest with
  | [] => (Exhausted, w, [])
  | strategy :: later =>
      match strategy w with
      | (Returns true, w1) => (Succeeded i, w1, [Invoked i])
      | (Pending, w1) => (Stuck i, w1, [Invoked i])
      | (_, w1) =>
          let pause := if (i <? n - 1)%nat then [Delayed 2000] else [] in
          let '(exit, w2, steps) := try_from later (S i) n w1 in
          (exit, w2, Invoked i :: pause ++ steps)
      end
  end.

(** The body of [downloadWithMultipleStrategies] over a list of
    strategies. *)
Definition pipeline (env : Env) (strategies : list Executor) (downloadId : string)
    (w : World) : Completion unit * World * list Step :=
  let '(_, w1) := storage_updateDownload downloadId (status_progress downloading 0) w in
  if negb (outputDir_exists env) && mkdir_throws env then
    (* catch (error) of the outer try *)
    let '(_, w2) := storage_updateDownload downloadId (status_progress failed 0) w1 in
    (Returns (), w2, [])
  else
    match try_from strategies 0 (length strategies) w1 with
    | (Succeeded _, w2, steps) => (Returns (), w2, steps)
    | (Exhausted, w2, steps) =>
        let '(_, w3) := storage_updateDownload downloadId (status_progress failed 0) w2 in
        (Returns (), w3, steps)
    | (Stuck _, w2, steps) => (Pending, w2, steps)
    end.

Definition strategies_of (env : Env) (downloadId url format title : string)
    : list Executor :=
  [ tryYtdlCore env downloadId url format title;
    tryYoutubeDlExec env downloadId url format title;
    tryEnhancedYtDlp env downloadId url format title ].

Definition downloadWithMultipleStrategies (env : Env)
    (downloadId url format title : string) (w : World)
    : Completion unit * World * list Step :=
  pipeline env (strategies_of env downloadId url format title) downloadId w.

(** *** The handlers *)

Inductive Response : Type :=
| Json (download : Download)               (* res.json(download) *)
| BadRequest                               (* res.status(400).json({ message }) *)
| NotFound (message : string)              (* res.status(404).json({ message }) *)
| Attachment (path : string).              (* the file piped into the response *)

(** The call [downloadWithMultipleStrategies(..)] the handler makes
    without awaiting it. *)
Record Launch : Type := mkLaunch {
  launch_id : string;
  launch_url : string;
  launch_format : string;
  launch_title : string;
}.

(** [downloadData.format || "mp4"]. *)
Definition format_or_mp4 (fmt : js string) : string :=
  match fmt with
  | Val s => if String.eqb s "" then "mp4" else s
  | _ => "mp4"
  end.

(** [POST /api/download]: the response is written before the pipeline is
    started. *)
Definition post_download (uuid : string) (now : Z) (body : json) (w : World)
    : Response * World * option Launch :=
  match insertDownloadSchema_parse body with
  | None => (BadRequest, w, None)
  | Some downloadData =>
      match storage_createDownload uuid now downloadData w with
      | (Returns download, w1) =>
          (Json download, w1,
           Some (mkLaunch (id download) (ins_youtubeUrl downloadData)
                          (format_or_mp4 (ins_format downloadData))
                          (ins_title downloadData)))
      | (_, w1) => (BadRequest, w1, None)
      end
  end.

(** [!download.filePath]. *)
Definition no_filePath (p : js string) : bool :=
  match p with
  | Val s => String.eqb s ""
  | _ => true
  end.

(** [GET /api/download/:id/file]; [existsSync] is the disk at the time of
    the request. *)
Definition get_download_file (existsSync : string → bool) (key : string) (w : World)
    : Response :=
  match MemStorage.getDownload key (downloads w) with
  | None => NotFound "File not found or download not completed"
  | Some download =>
      if negb (bool_decide (status download = completed)) || no_filePath (filePath download)
      then NotFound "File not found or download not completed"
      else
        match filePath download with
        | Val path =>
            if negb (existsSync path) then NotFound "File not found on disk"
            else Attachment path
        | _ => NotFound "File not found or download not completed"
        end
  end.

(** *** One job from submission to the end of its pipeline *)

(** The handler, then the launched pipeline.  Observation starts with the
    creation of the record. *)
Definition job (env : Env) (uuid : string) (now : Z) (body : json)
    (store : gmap string Download) : Response * World * list Step :=
  match post_download uuid now body (mkWorld store []) with
  | (response, w, Some l) =>
      let '(_, w', steps) :=
        downloadWithMultipleStrategies env (launch_id l) (launch_url l)
          (launch_format l) (launch_title l) w in
      (response, w', steps)
  | (response, w, None) => (response, w, [])
  end.

(** The successive states of record [key] an observer can have seen. *)
Definition history (key : string) (w : World) : list Download :=
  omap (λ m : gmap string Download, m !! key) (observed w).

End Routes.
Import MemStorage Routes.

(** ** Vocabulary of the properties *)

(** *** Attempts of a list of strategies *)

(** The world in which strategy [j] (counted from 0) is called when the
    strategies before it have been called in order. *)
Definition world_before (strategies : list Executor) (w : World) (j : nat) : World :=
  foldl (λ w' (strategy : Executor), (strategy w').2) w (take j strategies).

(** How the call of strategy [j] ends there. *)
Definition attempt (strategies : list Executor) (w : World) (j : nat)
    : option (Completion bool) :=
  (λ strategy : Executor, (strategy (world_before strategies w j)).1) <$> strategies !! j.

(** A failed attempt: the promise resolves to [false] or rejects. *)
Definition fails (o : option (Completion bool)) : Prop :=
  o = Some (Returns false) ∨ o = Some Throws.

(** The world the loop of the pipeline starts in. *)
Definition loop_start (downloadId : string) (w : World) : World :=
  (storage_updateDownload downloadId (status_progress downloading 0) w).2.

(** An executor that reaches the store through [updateDownload] only never
    removes a record. *)
Definition keeps_record (key : string) (strategy : Executor) : Prop :=
  ∀ w, is_Some (downloads w !! key) → is_Some (downloads (strategy w).2 !! key).

(** Strategies [0..k] called in turn, a pause after each of [0..k-1]. *)
Definition attempts_until (k : nat) : list Step :=
  flat_map (λ j, [Invoked j; Delayed 2000]) (seq 0 k) ++ [Invoked k].

Definition invocations (steps : list Step) : list nat :=
  omap (λ s, match s with Invoked i => Some i | Delayed _ => None end) steps.

Definition delays (steps : list Step) : list Z :=
  omap (λ s, match s with Delayed ms => Some ms | Invoked _ => None end) steps.

(** *** Observed records *)






(** What [updateDownload] may do to one field: take the named value, or
    keep the old one. *)
Definition field_follows {A} (old : A) (named : option A) (new : A) : Prop :=
  match named with
  | Some v => new = v
  | None => new = old
  end.

Definition only_named_fields_change (d : Download) (u : Updates) (d' : Download) : Prop :=
  field_follows (id d) (u_id u) (id d')
  ∧ field_follows (youtubeUrl d) (u_youtubeUrl u) (youtubeUrl d')
  ∧ field_follows (title d) (u_title u) (title d')
  ∧ field_follows (duration d) (u_duration u) (duration d')
  ∧ field_follows (thumbnail d) (u_thumbnail u) (thumbnail d')
  ∧ field_follows (channel d) (u_channel u) (channel d')
  ∧ field_follows (views d) (u_views u) (views d')
  ∧ field_follows (publishDate d) (u_publishDate u) (publishDate d')
  ∧ field_follows (format d) (u_format u) (format d')
  ∧ field_follows (status d) (u_status u) (status d')
  ∧ field_follows (progress d) (u_progress u) (progress d')
  ∧ field_follows (filePath d) (u_filePath u) (filePath d')
  ∧ field_follows (createdAt d) (u_createdAt u) (createdAt d').

(** *** Shape of a submission *)

Definition is_string (v : option json) : bool :=
  match v with Some (JString _) => true | _ => false end.

Definition absent_or_string (v : option json) : bool :=
  match v with None | Some (JString _) => true | _ => false end.

Definition absent_null_or_string (v : option json) : bool :=
  match v with None | Some JNull | Some (JString _) => true | _ => false end.

(** The bodies [POST /api/download] accepts: an object with the strings
    [youtubeUrl] and [title], whose five descriptive keys are absent, [null]
    or strings and whose [format] is absent or a string. *)
Definition well_shaped (body : json) : bool :=
  match body with
  | JObject props =>
      is_string (own_property "youtubeUrl" props)
      && is_string (own_property "title" props)
      && forallb (λ key, absent_null_or_string (own_property key props))
           ["duration"; "thumbnail"; "channel"; "views"; "publishDate"]
      && absent_or_string (own_property "format" props)
  | _ => false
  end.

(** *** The contract of an executor *)

(** A sequence of [storage.updateDownload(key, ..)] calls. *)
Definition apply_updates (key : string) (us : list Updates) (w : World) : World :=
  foldl (λ w' u, (storage_updateDownload key u w').2) w us.

(** The writes of an attempt that is under way: a new attempt
    ([status: "downloading"] with a progress), or a progress alone. *)
Definition in_flight (u : Updates) : Prop :=
  (∃ p, u = status_progress downloading p) ∨ (∃ p, u = progress_only p).

(** The writes of the 'progress' handler of ytdl-core. *)
Definition progress_writes (events : list (N * N)) : list Updates :=
  map (λ e, progress_only (percent e.1 e.2)) events.

(** What an attempt that ended as [c] may have written: the completion
    fields last when it resolved to [true], and before that, or otherwise,
    writes of an attempt under way. *)
Definition writes_of_attempt (c : Completion bool) (us : list Updates) : Prop :=
  match c with
  | Returns true =>
      ∃ before path, us = before ++ [completion path] ∧ Forall in_flight before
  | _ => Forall in_flight us
  end.

Definition executor_contract (key : string) (strategy : Executor) : Prop :=
  ∀ w, ∃ us, (strategy w).2 = apply_updates key us w
             ∧ writes_of_attempt (strategy w).1 us.

(** The mechanisms come to an end: no promise stays pending, the streams
    and the child end, and the output directory can be listed when the
    child has closed with code 0. *)
Definition settles (env : Env) : Prop :=
  getInfo env ≠ InfoPending ∧ ending env ≠ Stalled
  ∧ youtubedl env ≠ ExecPending ∧ child env ≠ NeverCloses
  ∧ (child env = Closed (Some 0%Z) → readdir_after_close env ≠ None).

(** The runs in which a mechanism produces its file. *)
Definition ytdl_succeeds (env : Env) (url : string) : Prop :=
  validateURL env url = true
  ∧ (∃ container, getInfo env = InfoResolved (Chosen container))
  ∧ streams_open env = true ∧ ending env = Finish.

Definition exec_succeeds (env : Env) (title : string) : Prop :=
  youtubedl env = ExecResolved
  ∧ ∃ entries, readdir_after_exec env = Some entries
               ∧ matching_files (sanitizedTitle title) entries ≠ [].

Definition ytdlp_succeeds (env : Env) (title : string) : Prop :=
  child env = Closed (Some 0%Z)
  ∧ ∃ entries, readdir_after_close env = Some entries
               ∧ matching_files (sanitizedTitle title) entries ≠ [].

(** *** The life of a record *)




(** *** Sample runs *)

Definition sample_body : json :=
  JObject [("youtubeUrl", JString "https://www.youtube.com/watch?v=abc");
           ("title", JString "Sample clip");
           ("format", JString "mp4-720p")].

Definition malformed_body : json :=
  JObject [("youtubeUrl", JString "not a url");
           ("title", JString "Sample clip");
           ("format", JString "no such format")].


(** ytdl-core and youtube-dl-exec fail, yt-dlp leaves a file. *)
Definition env_third_succeeds : Env :=
  mkEnv "/app" true false (λ _, true) InfoRejected true [] Finish
        ExecRejected None (Closed (Some 0%Z)) (Some ["Sample_clip.mp4"]).

(** No strategy produces a file. *)
Definition env_all_fail : Env :=
  mkEnv "/app" false false (λ _, false) InfoRejected true [] StreamError
        ExecRejected None (Closed (Some 1%Z)) None.

(** The connection of ytdl-core stalls for good. *)
Definition env_stalled : Env :=
  mkEnv "/app" true false (λ _, true) (InfoResolved (Chosen "mp4")) true
        [(10%N, 1000%N)] Stalled ExecRejected None SpawnFailed None.

(** [spawn] refuses its arguments. *)
Definition env_spawn_throws : Env :=
  mkEnv "/app" true false (λ _, false) InfoRejected true [] StreamError
        ExecRejected None SpawnThrows None.

Definition sample_record : Download :=
  mkDownload "job-1" "https://www.youtube.com/watch?v=abc" "Sample clip"
             Undefined Undefined Undefined Undefined Undefined (Val "mp4-720p")
             pending (Val (Num 0)) Null (Val 0%Z).

Definition sample_store : gmap string Download := {[ "job-1" := sample_record ]}.

Definition sample_world : World := mkWorld sample_store [sample_store].

(** ** JavaScript [Map] *)

Module JsMap.

(** A [Map<string, V>] as its entries in insertion order.  [get] and [set]
    look for the first entry of the key; [set] on a key that is present
    keeps its place, on a new key appends. *)
Fixpoint get {V} (key : string) (m : list (string * V)) : option V :=
  match m with
  | [] => None
  | (k, v) :: rest => if String.eqb k key then Some v else get key rest
  end.

Fixpoint set {V} (key : string) (v : V) (m : list (string * V)) : list (string * V) :=
  match m with
  | [] => [(key, v)]
  | (k, v0) :: rest =>
      if String.eqb k key then (k, v) :: rest else (k, v0) :: set key v rest
  end.

(** [Array.from(map.values())]. *)
Definition values {V} (m : list (string * V)) : list V := m.*2.

Definition keys {V} (m : list (string * V)) : list string := m.*1.

(** The map as the [gmap] the pipeline is modelled over. *)
Definition to_gmap {V} (m : list (string * V)) : gmap string V := list_to_map m.

End JsMap.

(** ** server/storage.ts: the users *)

Module Users.

(** [typeof users.$inferSelect]. *)
Record User : Type := mkUser {
  user_id : string;
  username : string;
  password : string;
}.

(** [z.infer<typeof insertUserSchema>]. *)
Record InsertUser : Type := mkInsertUser {
  ins_username : string;
  ins_password : string;
}.

Definition getUser (key : string) (users : list (string * User)) : option User :=
  JsMap.get key users.

(** [Array.from(this.users.values()).find((user) => user.username === username)]. *)
Definition getUserByUsername (name : string) (users : list (string * User))
    : option User :=
  List.find (λ user, String.eqb (username user) name) (JsMap.values users).

(** [createUser]: [uuid] is the result of [randomUUID()]. *)
Definition createUser (uuid : string) (insertUser : InsertUser)
    (users : list (string * User)) : User * list (string * User) :=
  let user :=
    {| user_id := uuid;
       username := ins_username insertUser;
       password := ins_password insertUser |} in
  (user, JsMap.set uuid user users).

End Users.

(** ** server/storage.ts: the downloads in insertion order *)

Module MapStorage.

(** [Array.prototype.sort(compareFn)] for a consistent [compareFn]: the
    stable sort.  [place] puts [x], which stood before all of [sorted], in
    front of the first element it need not follow. *)
Fixpoint place {A} (compareFn : A → A → Z) (x : A) (sorted : list A) : list A :=
  match sorted with
  | [] => [x]
  | y :: rest =>
      if (0 <? compareFn x y)%Z then y :: place compareFn x rest
      else x :: y :: rest
  end.

Definition sort {A} (compareFn : A → A → Z) (l : list A) : list A :=
  foldr (place compareFn) [] l.

(** [new Date(d.createdAt || 0).getTime()]. *)
Definition created_time (d : Download) : Z :=
  match createdAt d with
  | Val t => t
  | _ => 0%Z
  end.

Definition createDownload (uuid : string) (now : Z) (ins : InsertDownload)
    (entries : list (string * Download)) : Download * list (string * Download) :=
  let download :=
    {| id := uuid;
       youtubeUrl := ins_youtubeUrl ins;
       title := ins_title ins;
       duration := ins_duration ins;
       thumbnail := ins_thumbnail ins;
       channel := ins_channel ins;
       views := ins_views ins;
       publishDate := ins_publishDate ins;
       format := ins_format ins;
       status := pending;
       progress := Val (Num 0);
       filePath := Null;
       createdAt := Val now |} in
  (download, JsMap.set uuid download entries).

Definition getDownload (key : string) (entries : list (string * Download))
    : option Download :=
  JsMap.get key entries.

Definition updateDownload (key : string) (updates : Updates)
    (entries : list (string * Download))
    : option Download * list (string * Download) :=
  match JsMap.get key entries with
  | None => (None, entries)
  | Some download =>
      let updatedDownload := spread download updates in
      (Some updatedDownload, JsMap.set key updatedDownload entries)
  end.

(** [getAllDownloads], which is also the body of [GET /api/downloads]. *)
Definition getAllDownloads (entries : list (string * Download)) : list Download :=
  sort (λ a b, created_time b - created_time a)%Z (JsMap.values entries).

End MapStorage.

(** ** server/routes.ts: the other handlers *)

Module Handlers.


(** [String.prototype.trim] on code units below 256. *)
Fixpoint trim_start (s : string) : string :=
  match s with
  | String c rest => if is_whitespace c then trim_start rest else s
  | EmptyString => EmptyString
  end.

Fixpoint trim_end (s : string) : string :=
  match s with
  | String c rest =>
      match trim_end rest with
      | EmptyString => if is_whitespace c then EmptyString else String c EmptyString
      | kept => String c kept
      end
  | EmptyString => EmptyString
  end.

Definition trim (s : string) : string := trim_end (trim_start s).

(** [s.split('\n')]. *)
Fixpoint split_lines (s : string) : list string :=
  match s with
  | EmptyString => [EmptyString]
  | String c rest =>
      if (nat_of_ascii c =? 10)%nat then EmptyString :: split_lines rest
      else
        match split_lines rest with
        | line :: lines => String c line :: lines
        | [] => [String c EmptyString]
        end
  end.

(** [output.trim().split('\n').find(line => line.trim().startsWith('{'))]. *)
Definition jsonLine (output : string) : option string :=
  List.find (λ line, String.prefix "{" (trim line)) (split_lines (trim output)).

(** [videoAnalysisSchema.parse(req.body)]: [None] is a thrown [ZodError]. *)
Definition videoAnalysisSchema_parse (is_url : string → bool) (body : json)
    : option string :=
  match body with
  | JObject props =>
      match own_property "url" props with
      | Some (JString url) =>
          if videoAnalysisSchema_accepts is_url url then Some url else None
      | _ => None
      end
  | _ => None
  end.

(** [spawn("yt-dlp", [.., url])] in [POST /api/analyze] and the life of the
    child: [spawn] throws, the child cannot be started (an 'error' event,
    for which this handler registers no listener), it closes with an exit
    code and what it has printed, or it never closes. *)
Inductive Analysis : Type :=
| AnalysisSpawnThrows
| AnalysisSpawnFailed
| AnalysisClosed (code : option Z) (stdout : string)
| AnalysisNeverCloses.

(** What the handler does to the response. *)
Inductive Answer (P : Type) : Type :=
| Answered200 (payload : P)
| Answered400
| Answered500 (message : string)
| Unanswered                  (* no 'close': nothing is ever written *)
| UncaughtError.              (* the 'error' event is thrown by the emitter *)
Arguments Answered200 {P} payload.
Arguments Answered400 {P}.
Arguments Answered500 {P} message.
Arguments Unanswered {P}.
Arguments UncaughtError {P}.

(** [POST /api/analyze].  [render] is [JSON.parse] followed by the building
    of the response object, [None] when either throws.  The first component
    is the url handed to yt-dlp, if [spawn] was called. *)
Definition post_analyze {P} (is_url : string → bool) (render : string → option P)
    (child : Analysis) (body : json) : option string * Answer P :=
  match videoAnalysisSchema_parse is_url body with
  | None => (None, Answered400)
  | Some url =>
      match child with
      | AnalysisSpawnThrows => (Some url, Answered400)
      | AnalysisSpawnFailed => (Some url, UncaughtError)
      | AnalysisNeverCloses => (Some url, Unanswered)
      | AnalysisClosed code output =>
          if negb (bool_decide (code = Some 0%Z)) then
            (Some url,
             Answered500 "Failed to analyze video. Please check the URL and try again.")
          else
            match jsonLine output with
            | None => (Some url, Answered500 "Failed to parse video information.")
            | Some line =>
                match render line with
                | Some payload => (Some url, Answered200 payload)
                | None => (Some url, Answered500 "Failed to parse video information.")
                end
            end
      end
  end.

(** [`${n}`] for a natural number. *)
Definition decimal (n : N) : string := NilZero.string_of_uint (N.to_uint n).

(** [`${count} ${unit}${count > 1 ? 's' : ''} ago`]. *)
Definition counted (count : N) (unit : string) : string :=
  decimal count +:+ " " +:+ unit +:+ (if (1 <? count)%N then "s" else "") +:+ " ago".

(** [formatDate].  [time_of] is [new Date(iso).getTime()], [None] for an
    invalid date; [now] is [new Date().getTime()].  Time values are below
    2^53, where the quotients are exact. *)
Definition formatDate (time_of : string → option Z) (now : Z) (dateString : string)
    : string :=
  if (String.length dateString =? 8)%nat then
    let year := substring 0 4 dateString in
    let month := substring 4 2 dateString in
    let day := substring 6 2 dateString in
    match time_of (year +:+ "-" +:+ month +:+ "-" +:+ day) with
    | None => "NaN year ago"
    | Some date =>
        let diffTime := Z.abs (now - date) in
        let diffDays := Z.to_N ((diffTime + 86399999) / 86400000) in
        if (diffDays <? 30)%N then decimal diffDays +:+ " days ago"
        else if (diffDays <? 365)%N then counted (diffDays / 30) "month"
        else counted (diffDays / 365) "year"
    end
  else dateString.

End Handlers.

(** ** Vocabulary of the further properties *)

(** [{ ...u1, ...u2 }]: the updates of two calls in a row as one. *)
Definition merge_updates (u1 u2 : Updates) : Updates :=
  {| u_id := u_id u2 ∪ u_id u1;
     u_youtubeUrl := u_youtubeUrl u2 ∪ u_youtubeUrl u1;
     u_title := u_title u2 ∪ u_title u1;
     u_duration := u_duration u2 ∪ u_duration u1;
     u_thumbnail := u_thumbnail u2 ∪ u_thumbnail u1;
     u_channel := u_channel u2 ∪ u_channel u1;
     u_views := u_views u2 ∪ u_views u1;
     u_publishDate := u_publishDate u2 ∪ u_publishDate u1;
     u_format := u_format u2 ∪ u_format u1;
     u_status := u_status u2 ∪ u_status u1;
     u_progress := u_progress u2 ∪ u_progress u1;
     u_filePath := u_filePath u2 ∪ u_filePath u1;
     u_createdAt := u_createdAt u2 ∪ u_createdAt u1 |}.

(** The fields of a record no write of the pipeline names. *)
Definition same_submission (d d' : Download) : Prop :=
  id d' = id d ∧ youtubeUrl d' = youtubeUrl d ∧ title d' = title d
  ∧ duration d' = duration d ∧ thumbnail d' = thumbnail d
  ∧ channel d' = channel d ∧ views d' = views d
  ∧ publishDate d' = publishDate d ∧ format d' = format d
  ∧ createdAt d' = createdAt d.

(** The writes of the pipeline and its executors: status, progress and
    file path only. *)
Definition job_write (u : Updates) : Prop :=
  in_flight u ∨ (∃ path, u = completion path) ∨ u = status_progress failed 0.

(** [executor_contract] with the recorded path in [ok_path]. *)
Definition records_path_in (ok_path : string → Prop) (c : Completion bool)
    (us : list Updates) : Prop :=
  match c with
  | Returns true =>
      ∃ before path, us = before ++ [completion path] ∧ Forall in_flight before
                     ∧ ok_path path
  | _ => Forall in_flight us
  end.

Definition path_contract (ok_path : string → Prop) (key : string)
    (strategy : Executor) : Prop :=
  ∀ w, ∃ us, (strategy w).2 = apply_updates key us w
             ∧ records_path_in ok_path (strategy w).1 us.


(** The characters a sanitized title is made of. *)
Definition file_safe (c : ascii) : Prop := is_word c = true ∨ c = "-"%char.

(** The characters [sanitizedTitle] removes. *)
Definition removed (c : ascii) : Prop :=
  is_word c || is_whitespace c || (nat_of_ascii c =? 45)%nat = false.

(** The keys of [insertDownloadSchema]. *)
Definition picked_keys : list string :=
  ["youtubeUrl"; "title"; "duration"; "thumbnail"; "channel"; "views";
   "publishDate"; "format"].

(** The date [formatDate] hands to [new Date]. *)
Definition iso_date (dateString : string) : string :=
  substring 0 4 dateString +:+ "-" +:+ substring 4 2 dateString +:+ "-"
  +:+ substring 6 2 dateString.

(** The labels of [formatDate]: a count and its unit. *)
Definition label_of (count : N) (unit : string) : Prop :=
  (unit = "days" ∧ (count < 30)%N)
  ∨ (unit = "month" ∧ count = 1%N)
  ∨ (unit = "months" ∧ (2 ≤ count ≤ 12)%N)
  ∨ (unit = "year" ∧ count = 1%N)
  ∨ (unit = "years" ∧ (2 ≤ count)%N).

(** A user of the sample runs. *)
Definition sample_user : Users.User := Users.mkUser "user-1" "ada" "secret".

(** ** The record store *)

Section Store.
Context (store : gmap string Download) (key : string) (updates : Updates).

Lemma updateDownload_found d :
  store !! key = Some d →
  updateDownload key updates store
  = (Some (spread d updates), <[key := spread d updates]> store).
Proof. intros Hd. unfold updateDownload. by rewrite Hd. Qed.

Lemma updateDownload_missing :
  store !! key = None → updateDownload key updates store = (None, store).
Proof. intros Hd. unfold updateDownload. by rewrite Hd. Qed.

Lemma spread_only_named d : only_named_fields_change d updates (spread d updates).
Proof.
  unfold only_named_fields_change, field_follows, spread, override; simpl.
  repeat split; by case_match.
Qed.

Lemma updateDownload_dom : dom (updateDownload key updates store).2 = dom store.
Proof.
  unfold updateDownload. destruct (store !! key) as [d|] eqn:Hd; simpl; [|done].
  apply dom_insert_lookup_L. by rewrite Hd.
Qed.
End Store.

(** C10. [updateDownload(id, updates)] leaves every record with another id as
    it was and neither adds nor removes an id; the target record, when it
    exists, is returned and stored with exactly the fields named in
    [updates] replaced; when it does not exist the result is [undefined] and
    the store is unchanged. *)
Theorem updateDownload_frame (store : gmap string Download) (key : string)
    (updates : Updates) :
  (∀ other, other ≠ key →
     (updateDownload key updates store).2 !! other = store !! other)
  ∧ dom (updateDownload key updates store).2 = dom store
  ∧ match store !! key with
    | Some d =>
        ∃ d', updateDownload key updates store = (Some d', <[key := d']> store)
              ∧ only_named_fields_change d updates d'
    | None => updateDownload key updates store = (None, store)
    end.
Proof.
  split; [|split].
  - intros other Hne. unfold updateDownload.
    destruct (store !! key); simpl; [|done].
    by rewrite lookup_insert_ne.
  - apply updateDownload_dom.
  - destruct (store !! key) as [d|] eqn:Hd.
    + exists (spread d updates). split.
      * by apply updateDownload_found.
      * apply spread_only_named.
    + by apply updateDownload_missing.
Qed.

Lemma updateDownload_frame_witness :
  (updateDownload "job-1" (status_progress downloading 0) sample_store).2 !! "job-2"
  = sample_store !! "job-2".
Proof.
  apply (proj1 (updateDownload_frame sample_store "job-1"
                  (status_progress downloading 0)) "job-2").
  discriminate.
Defined.

(** ** The handlers *)

(** C8. [GET /api/download/:id/file] answers Not-Found for every record whose
    status is not [completed], whatever the disk holds; it streams a file
    only for a completed record with a recorded path that exists on disk,
    and it does stream in that case. *)
Theorem file_only_when_completed (existsSync : string → bool) (key : string)
    (w : World) :
  (∀ d, downloads w !! key = Some d → status d ≠ completed →
        ∃ message, get_download_file existsSync key w = NotFound message)
  ∧ (∀ path, get_download_file existsSync key w = Attachment path →
        ∃ d, downloads w !! key = Some d ∧ status d = completed
             ∧ filePath d = Val path ∧ existsSync path = true)
  ∧ (∀ d path, downloads w !! key = Some d → status d = completed →
        filePath d = Val path → path ≠ "" → existsSync path = true →
        get_download_file existsSync key w = Attachment path).
Proof.
  unfold get_download_file, getDownload. repeat split.
  - intros d Hd Hs. rewrite Hd. rewrite bool_decide_eq_false_2 by done. simpl. eauto.
  - intros path. destruct (downloads w !! key) as [d|]; [|done].
    case_bool_decide as Hs; simpl; [|done].
    destruct (filePath d) as [| |p] eqn:Hp; simpl; try done.
    destruct (String.eqb p ""); simpl; [done|].
    destruct (existsSync p) eqn:He; simpl; [|done].
    intros [= <-]. eauto.
  - intros d path Hd Hs Hp Hne He. rewrite Hd, Hp.
    rewrite bool_decide_eq_true_2 by done. simpl.
    destruct (String.eqb path "") eqn:Hempty; simpl.
    + by apply String.eqb_eq in Hempty.
    + by rewrite He.
Qed.

Lemma file_only_when_completed_witness :
  ∃ message, get_download_file (λ _, true) "job-1" sample_world = NotFound message.
Proof.
  apply (proj1 (file_only_when_completed (λ _, true) "job-1" sample_world)
           sample_record); [reflexivity | discriminate].
Defined.

Lemma parse_well_shaped body :
  well_shaped body = true ↔ is_Some (insertDownloadSchema_parse body).
Proof.
  destruct body as [| | | | |props]; simpl;
    try (split; [done | by intros [? ?]]).
  unfold required_string, optional_nullable_string, optional_string,
    is_string, absent_null_or_string, absent_or_string.
  destruct (own_property "youtubeUrl" props) as [[]|]; simpl;
    try (split; [done | by intros [? ?]]).
  destruct (own_property "title" props) as [[]|]; simpl;
    try (split; [done | by intros [? ?]]).
  destruct (own_property "duration" props) as [[]|]; simpl;
    try (split; [done | by intros [? ?]]);
  destruct (own_property "thumbnail" props) as [[]|]; simpl;
    try (split; [done | by intros [? ?]]);
  destruct (own_property "channel" props) as [[]|]; simpl;
    try (split; [done | by intros [? ?]]);
  destruct (own_property "views" props) as [[]|]; simpl;
    try (split; [done | by intros [? ?]]);
  destruct (own_property "publishDate" props) as [[]|]; simpl;
    try (split; [done | by intros [? ?]]);
  destruct (own_property "format" props) as [[]|]; simpl;
    (split; [done || eauto | done || by intros [? ?]]).
Qed.

(** The accepting path of the handler. *)
Lemma post_download_parsed uuid now body w data :
  insertDownloadSchema_parse body = Some data →
  ∃ d,
    post_download uuid now body w
    = (Json d,
       mkWorld (<[uuid := d]> (downloads w)) (observed w ++ [<[uuid := d]> (downloads w)]),
       Some (mkLaunch uuid (ins_youtubeUrl data) (format_or_mp4 (ins_format data))
                      (ins_title data)))
    ∧ id d = uuid ∧ createdAt d = Val now
    ∧ status d = pending ∧ progress d = Val (Num 0) ∧ filePath d = Null
    ∧ youtubeUrl d = ins_youtubeUrl data ∧ title d = ins_title data
    ∧ format d = ins_format data.
Proof.
  intros Hparse. unfold post_download. rewrite Hparse.
  unfold storage_createDownload, createDownload. simpl.
  eexists. split; [reflexivity|]. simpl. by repeat split.
Qed.

(** C9. For a body the schema accepts, [POST /api/download] answers with the
    record it has just stored under the new id: status [pending], progress
    0, no file path, the id and the creation time of this call.  The store
    holds that record and nothing else has been written; the pipeline is a
    call still to be run, on that id and on the submitted url, format (or
    "mp4") and title. *)
Theorem submit_returns_pending_record (uuid : string) (now : Z) (body : json)
    (w : World) (data : InsertDownload) :
  insertDownloadSchema_parse body = Some data →
  ∃ d,
    post_download uuid now body w
    = (Json d,
       mkWorld (<[uuid := d]> (downloads w)) (observed w ++ [<[uuid := d]> (downloads w)]),
       Some (mkLaunch uuid (ins_youtubeUrl data) (format_or_mp4 (ins_format data))
                      (ins_title data)))
    ∧ id d = uuid ∧ createdAt d = Val now
    ∧ status d = pending ∧ progress d = Val (Num 0) ∧ filePath d = Null.
Proof.
  intros Hparse.
  destruct (post_download_parsed uuid now body w data Hparse)
    as (d & Hpost & Hid & Hat & Hs & Hp & Hf & _).
  by exists d.
Qed.

Lemma submit_returns_pending_record_witness :
  ∃ d, (post_download "job-1" 0 sample_body (mkWorld ∅ [])).1.1 = Json d
       ∧ status d = pending ∧ progress d = Val (Num 0) ∧ filePath d = Null.
Proof.
  destruct (submit_returns_pending_record "job-1" 0 sample_body (mkWorld ∅ [])
              (mkInsertDownload "https://www.youtube.com/watch?v=abc" "Sample clip"
                 Undefined Undefined Undefined Undefined Undefined (Val "mp4-720p"))
              eq_refl) as (d & Hpost & _ & _ & Hs & Hp & Hf).
  exists d. rewrite Hpost. by repeat split.
Defined.

(** C7, as the claim has it, fails: a submission whose [youtubeUrl] is not a
    URL of the accepted site, and whose [format] is none the program knows,
    is answered with a new record, which is stored. *)
Lemma submit_accepts_malformed_url :
  (∀ is_url, videoAnalysisSchema_accepts is_url "not a url" = false)
  ∧ ∃ d w' l,
      post_download "job-1" 0 malformed_body (mkWorld ∅ []) = (Json d, w', Some l)
      ∧ downloads w' !! "job-1" = Some d
      ∧ youtubeUrl d = "not a url" ∧ format d = Val "no such format".
Proof.
  split.
  - intros is_url. unfold videoAnalysisSchema_accepts. apply andb_false_r.
  - eexists _, _, _. split; [reflexivity|]. by repeat split.
Qed.

(** C7, amended. [POST /api/download] validates the shape of the body and
    nothing else: a body that is not [well_shaped] is answered with 400,
    nothing is stored and no pipeline is started; a well-shaped body gets a
    record stored under the new id, whatever the text of [youtubeUrl] and
    [format]. *)
Theorem submit_validates_shape_only (uuid : string) (now : Z) (body : json)
    (w : World) :
  if well_shaped body
  then ∃ d l, post_download uuid now body w
              = (Json d, mkWorld (<[uuid := d]> (downloads w))
                           (observed w ++ [<[uuid := d]> (downloads w)]), Some l)
  else post_download uuid now body w = (BadRequest, w, None).
Proof.
  destruct (well_shaped body) eqn:Hshape.
  - apply parse_well_shaped in Hshape as [data Hdata].
    destruct (post_download_parsed uuid now body w data Hdata)
      as (d & Hpost & _).
    eauto.
  - unfold post_download.
    destruct (insertDownloadSchema_parse body) as [data|] eqn:Hdata; [|done].
    assert (well_shaped body = true) by (apply parse_well_shaped; eauto).
    congruence.
Qed.

(** ** The loop over the strategies *)

Section Loop.
Implicit Types (rest strategies : list Executor) (w : World).

Lemma world_before_0 rest w : world_before rest w 0 = w.
Proof. unfold world_before. by rewrite take_0. Qed.

Lemma world_before_S strategy rest w j :
  world_before (strategy :: rest) w (S j) = world_before rest (strategy w).2 j.
Proof. reflexivity. Qed.

Lemma attempt_0 strategy rest w :
  attempt (strategy :: rest) w 0 = Some (strategy w).1.
Proof. reflexivity. Qed.

Lemma attempt_S strategy rest w j :
  attempt (strategy :: rest) w (S j) = attempt rest (strategy w).2 j.
Proof. reflexivity. Qed.

Lemma attempt_is_Some rest w j o : attempt rest w j = Some o → j < length rest.
Proof.
  unfold attempt. intros H. apply fmap_Some in H as (e & He & _).
  by apply lookup_lt_Some in He.
Qed.

(** Strategy [k] of [rest] is the first to resolve to [true]: the loop
    returns there, having paused after each earlier strategy. *)
Lemma try_from_first_success k : ∀ rest i n w,
  i + length rest = n →
  attempt rest w k = Some (Returns true) →
  (∀ j, j < k → fails (attempt rest w j)) →
  try_from rest i n w
  = (Succeeded (i + k), world_before rest w (S k),
     flat_map (λ j, [Invoked j; Delayed 2000]) (seq i k) ++ [Invoked (i + k)]).
Proof.
  induction k as [|k IH]; intros rest i n w Hn Hk Hbefore.
  - destruct rest as [|strategy later]; [done|].
    rewrite attempt_0 in Hk. injection Hk as Hk.
    rewrite world_before_S, world_before_0. simpl.
    destruct (strategy w) as [c w1]. simpl in *. subst c.
    by rewrite Nat.add_0_r.
  - destruct rest as [|strategy later]; [done|].
    rewrite attempt_S in Hk.
    pose proof (attempt_is_Some _ _ _ _ Hk) as Hlen.
    assert (Hfirst : fails (attempt (strategy :: later) w 0)) by (apply Hbefore; lia).
    rewrite attempt_0 in Hfirst.
    assert (Hpause : (i <? n - 1)%nat = true)
      by (apply Nat.ltb_lt; simpl in Hn; lia).
    assert (Hlater : ∀ j, j < k → fails (attempt later (strategy w).2 j)).
    { intros j Hj. rewrite <- attempt_S. apply Hbefore. lia. }
    rewrite world_before_S. cbn [try_from].
    specialize (IH later (S i) n (strategy w).2).
    destruct (strategy w) as [c w1]. simpl in *.
    rewrite Hpause.
    rewrite IH; [| lia | done | done].
    replace (i + S k) with (S (i + k)) by lia.
    by destruct Hfirst as [[= ->]|[= ->]].
Qed.

(** Every strategy of [rest] fails: the loop runs past the last one. *)
Lemma try_from_all_fail : ∀ rest i n w,
  (∀ j, j < length rest → fails (attempt rest w j)) →
  ∃ steps, try_from rest i n w
           = (Exhausted, world_before rest w (length rest), steps).
Proof.
  induction rest as [|strategy later IH]; intros i n w Hall.
  - eexists. by rewrite world_before_0.
  - assert (Hfirst : fails (attempt (strategy :: later) w 0))
      by (apply Hall; simpl; lia).
    rewrite attempt_0 in Hfirst.
    destruct (IH (S i) n (strategy w).2) as [steps Hsteps].
    { intros j Hj. rewrite <- attempt_S. apply Hall. simpl. lia. }
    simpl length. rewrite world_before_S. cbn [try_from].
    destruct (strategy w) as [c w1]. simpl in *. rewrite Hsteps.
    destruct Hfirst as [[= ->]|[= ->]]; eauto.
Qed.

Lemma world_before_keeps key rest w j :
  Forall (keeps_record key) rest →
  is_Some (downloads w !! key) →
  is_Some (downloads (world_before rest w j) !! key).
Proof.
  intros Hkeep. revert w j.
  induction Hkeep as [|strategy later Hs _ IH]; intros w j Hw.
  - unfold world_before. by rewrite take_nil.
  - destruct j as [|j]; [by rewrite world_before_0|].
    rewrite world_before_S. apply IH, Hs, Hw.
Qed.

Lemma invocations_attempts i k :
  invocations (flat_map (λ j, [Invoked j; Delayed 2000]) (seq i k) ++ [Invoked (i + k)])
  = seq i (S k).
Proof.
  revert i. induction k as [|k IH]; intros i.
  - simpl. by rewrite Nat.add_0_r.
  - cbn [seq flat_map]. unfold invocations in *.
    replace (i + S k) with (S i + k) by lia.
    simpl. f_equal. apply IH.
Qed.

Lemma delays_attempts i k :
  delays (flat_map (λ j, [Invoked j; Delayed 2000]) (seq i k) ++ [Invoked (i + k)])
  = replicate k 2000%Z.
Proof.
  revert i. induction k as [|k IH]; intros i.
  - reflexivity.
  - cbn [seq flat_map]. unfold delays in *.
    replace (i + S k) with (S i + k) by lia.
    simpl. f_equal. apply IH.
Qed.
End Loop.

(** ** The store under the pipeline *)

Lemma storage_updateDownload_found key u w d :
  downloads w !! key = Some d →
  storage_updateDownload key u w
  = (Returns (Some (spread d u)),
     mkWorld (<[key := spread d u]> (downloads w))
             (observed w ++ [<[key := spread d u]> (downloads w)])).
Proof.
  intros Hd. unfold storage_updateDownload. by rewrite (updateDownload_found _ _ _ d).
Qed.

Lemma storage_updateDownload_missing key u w :
  downloads w !! key = None → storage_updateDownload key u w = (Returns None, w).
Proof.
  intros Hd. unfold storage_updateDownload. by rewrite updateDownload_missing.
Qed.

Lemma storage_updateDownload_keeps key key' u w :
  is_Some (downloads w !! key) →
  is_Some (downloads (storage_updateDownload key' u w).2 !! key).
Proof.
  intros Hw. destruct (downloads w !! key') as [d|] eqn:Hd.
  - rewrite (storage_updateDownload_found _ _ _ d Hd). simpl.
    destruct (decide (key' = key)) as [->|Hne].
    + rewrite lookup_insert_eq. eauto.
    + by rewrite lookup_insert_ne.
  - by rewrite storage_updateDownload_missing.
Qed.

(** C1. When strategy [k] (counted from 0, so the claim's [k+1]) is the
    first whose call resolves to [true], the pipeline calls strategies
    [0..k] in order and no other, pauses 2000 ms after each of the [k]
    failed calls and at no other time, and is over. *)
Theorem first_success_stops_pipeline (env : Env) (strategies : list Executor)
    (downloadId : string) (w : World) (k : nat) :
  negb (outputDir_exists env) && mkdir_throws env = false →
  attempt strategies (loop_start downloadId w) k = Some (Returns true) →
  (∀ j, j < k → fails (attempt strategies (loop_start downloadId w) j)) →
  (pipeline env strategies downloadId w).1.1 = Returns ()
  ∧ (pipeline env strategies downloadId w).2 = attempts_until k
  ∧ invocations (pipeline env strategies downloadId w).2 = seq 0 (S k)
  ∧ delays (pipeline env strategies downloadId w).2 = replicate k 2000%Z.
Proof.
  intros Hdir Hk Hbefore. unfold pipeline, loop_start in *.
  destruct (storage_updateDownload downloadId (status_progress downloading 0) w)
    as [r w1]. simpl in *.
  rewrite Hdir.
  rewrite (try_from_first_success k strategies 0 (length strategies) w1 eq_refl
             Hk Hbefore).
  simpl.
  unfold attempts_until.
  split; [done|]. split; [done|]. split.
  - apply (invocations_attempts 0 k).
  - apply (delays_attempts 0 k).
Qed.

(** ** The executors as writers of the store *)

Lemma apply_updates_app key us1 us2 w :
  apply_updates key (us1 ++ us2) w = apply_updates key us2 (apply_updates key us1 w).
Proof. unfold apply_updates. apply foldl_app. Qed.

Lemma storage_updateDownload_inv key u w c w' :
  storage_updateDownload key u w = (c, w') →
  (∃ r, c = Returns r) ∧ w' = apply_updates key [u] w.
Proof.
  intros H. unfold apply_updates. simpl. rewrite H. simpl. split; [|done].
  unfold storage_updateDownload in H.
  destruct (updateDownload key u (downloads w)) as [[d|] m]; injection H as <- <-; eauto.
Qed.

Ltac step_update :=
  match goal with
  | |- context [storage_updateDownload ?k ?u ?w] =>
      let c := fresh "c" in
      let w' := fresh "w" in
      let H := fresh "Hw" in
      destruct (storage_updateDownload k u w) as [c w'] eqn:H;
      apply storage_updateDownload_inv in H as [[? ->] H]; simpl
  end.

Lemma on_progress_run key events w :
  on_progress key events w = (Returns (), apply_updates key (progress_writes events) w).
Proof.
  revert w. induction events as [|[downloaded total] later IH]; intros w; [done|].
  simpl. unfold mbind, Async_bind. step_update. rewrite IH. by subst.
Qed.

Lemma in_flight_progress events : Forall in_flight (progress_writes events).
Proof.
  apply Forall_forall. intros u Hu.
  apply list_elem_of_In, in_map_iff in Hu as (e & <- & _). right. eauto.
Qed.

Lemma in_flight_attempt p : in_flight (status_progress downloading p).
Proof. left. eauto. Qed.

Lemma in_flight_one p : Forall in_flight [status_progress downloading p].
Proof. apply Forall_singleton, in_flight_attempt. Qed.

Lemma in_flight_attempt_progress p events :
  Forall in_flight (status_progress downloading p :: progress_writes events).
Proof. apply Forall_cons. split; [apply in_flight_attempt | apply in_flight_progress]. Qed.

Ltac unfold_async :=
  unfold settle, try_catch, mbind, Async_bind, mret, Async_ret, throw, never.

(** An attempt that wrote [status: "downloading"] and gave up. *)
Ltac gave_up p :=
  exists [status_progress downloading p]; split; [reflexivity | apply in_flight_one].

Lemma tryYtdlCore_contract env key url fmt title :
  executor_contract key (tryYtdlCore env key url fmt title).
Proof.
  intros w. unfold tryYtdlCore, ytdl_getInfo, ytdl_chooseFormat, ytdl_download.
  unfold_async.
  destruct (validateURL env url); simpl.
  2: { exists []. split; [reflexivity | constructor]. }
  step_update. subst.
  destruct (getInfo env) as [| |[| |container]]; simpl; try gave_up 10%Z.
  destruct (streams_open env); simpl; try gave_up 10%Z.
  rewrite on_progress_run.
  set (started := status_progress downloading 10 :: progress_writes (progress_events env)).
  destruct (ending env); simpl;
    try (exists started; split; [reflexivity | apply in_flight_attempt_progress]).
  step_update. subst.
  set (path := downloads_path env (sanitizedTitle title +:+ "." +:+ container)).
  exists (started ++ [completion path]). split.
  - rewrite apply_updates_app. reflexivity.
  - exists started, path. split; [reflexivity | apply in_flight_attempt_progress].
Qed.

Lemma tryYoutubeDlExec_contract env key url fmt title :
  executor_contract key (tryYoutubeDlExec env key url fmt title).
Proof.
  intros w. unfold tryYoutubeDlExec, await_youtubedl, readdirSync. unfold_async.
  step_update. subst.
  destruct (youtubedl env); simpl; try gave_up 20%Z.
  destruct (readdir_after_exec env) as [entries|]; simpl; try gave_up 20%Z.
  destruct (matching_files (sanitizedTitle title) entries) as [|file others]; simpl;
    try gave_up 20%Z.
  step_update. subst.
  exists [status_progress downloading 20; completion (downloads_path env file)].
  split; [reflexivity|].
  exists [status_progress downloading 20], (downloads_path env file).
  split; [reflexivity | apply in_flight_one].
Qed.

Lemma tryEnhancedYtDlp_contract env key url fmt title :
  executor_contract key (tryEnhancedYtDlp env key url fmt title).
Proof.
  intros w. unfold tryEnhancedYtDlp, ytdlp_download, on_close. unfold_async.
  step_update. subst.
  destruct (child env) as [| |code|]; simpl; try gave_up 30%Z.
  case_bool_decide; simpl; try gave_up 30%Z.
  destruct (readdir_after_close env) as [entries|]; simpl; try gave_up 30%Z.
  destruct (matching_files (sanitizedTitle title) entries) as [|file others]; simpl;
    try gave_up 30%Z.
  step_update. subst.
  exists [status_progress downloading 30; completion (downloads_path env file)].
  split; [reflexivity|].
  exists [status_progress downloading 30], (downloads_path env file).
  split; [reflexivity | apply in_flight_one].
Qed.

(** ** Records under the executors *)

Lemma apply_updates_keeps key key' us w :
  is_Some (downloads w !! key) →
  is_Some (downloads (apply_updates key' us w) !! key).
Proof.
  revert w. induction us as [|u us IH]; intros w Hw; [done|].
  apply IH. by apply storage_updateDownload_keeps.
Qed.

Lemma contract_keeps_record key strategy :
  executor_contract key strategy → keeps_record key strategy.
Proof.
  intros Hc w Hw. destruct (Hc w) as (us & -> & _). by apply apply_updates_keeps.
Qed.

(** *** Lifelines *)






(** *** Writes on a tracked record *)











(** ** The pipeline *)

Lemma strategies_of_contract env key url fmt title :
  Forall (executor_contract key) (strategies_of env key url fmt title).
Proof.
  repeat constructor;
    [apply tryYtdlCore_contract | apply tryYoutubeDlExec_contract
    | apply tryEnhancedYtDlp_contract].
Qed.

Lemma strategies_of_keep env key url fmt title :
  Forall (keeps_record key) (strategies_of env key url fmt title).
Proof.
  eapply Forall_impl; [apply strategies_of_contract|].
  intros strategy. apply contract_keeps_record.
Qed.









(** C5. When every strategy resolves to [false] or rejects, the pipeline
    returns and leaves the record [failed] with progress 0. *)
Theorem all_strategies_fail_marks_failed (env : Env) (strategies : list Executor)
    (downloadId : string) (w : World) :
  is_Some (downloads w !! downloadId) →
  Forall (keeps_record downloadId) strategies →
  (∀ j, j < length strategies →
        fails (attempt strategies (loop_start downloadId w) j)) →
  ∃ w' steps d,
    pipeline env strategies downloadId w = (Returns (), w', steps)
    ∧ downloads w' !! downloadId = Some d
    ∧ status d = failed ∧ progress d = Val (Num 0).
Proof.
  intros Hw Hkeep Hall. unfold pipeline, loop_start in *.
  pose proof (storage_updateDownload_keeps downloadId downloadId
                (status_progress downloading 0) w Hw) as Hw1.
  destruct (storage_updateDownload downloadId (status_progress downloading 0) w)
    as [c w1]. simpl in *.
  destruct (negb (outputDir_exists env) && mkdir_throws env).
  - destruct Hw1 as [d Hd].
    rewrite (storage_updateDownload_found _ _ _ d Hd).
    eexists _, _, _. split; [reflexivity|]. simpl.
    rewrite lookup_insert_eq. done.
  - destruct (try_from_all_fail strategies 0 (length strategies) w1 Hall)
      as [steps ->].
    destruct (world_before_keeps downloadId strategies w1 (length strategies)
                Hkeep Hw1) as [d Hd].
    rewrite (storage_updateDownload_found _ _ _ d Hd).
    eexists _, _, _. split; [reflexivity|]. simpl.
    rewrite lookup_insert_eq. done.
Qed.

(** ** How the executors end *)

Lemma tryYtdlCore_outcome env key url fmt title w :
  (tryYtdlCore env key url fmt title w).1 ≠ Throws
  ∧ (getInfo env ≠ InfoPending → ending env ≠ Stalled →
     ∃ b, (tryYtdlCore env key url fmt title w).1 = Returns b
          ∧ (b = true ↔ ytdl_succeeds env url)).
Proof.
  unfold tryYtdlCore, ytdl_getInfo, ytdl_chooseFormat, ytdl_download, ytdl_succeeds.
  unfold_async.
  destruct (validateURL env url) eqn:Hurl; simpl.
  2: { split; [done|]. intros _ _. exists false. split; [done|].
       split; [done | by intros (? & _)]. }
  step_update.
  destruct (getInfo env) as [| |[| |container]] eqn:Hinfo; simpl;
    try (split; [done|]; intros Hp Hs;
         first [congruence
               | exists false; split; [done|];
                 split; [done | by intros (_ & [? ?] & _)]]).
  destruct (streams_open env) eqn:Hopen; simpl.
  2: { split; [done|]. intros _ _. exists false. split; [done|].
       split; [done | by intros (_ & _ & ? & _)]. }
  rewrite on_progress_run.
  destruct (ending env) eqn:Hend; simpl; [step_update|..];
    (split; [done|]; intros Hp Hs; try congruence).
  - exists true. split; [done|]. split; [|done]. intros _. eauto 6.
  - exists false. split; [done|]. split; [done | by intros (_ & _ & _ & ?)].
  - exists false. split; [done|]. split; [done | by intros (_ & _ & _ & ?)].
Qed.

Lemma tryYoutubeDlExec_outcome env key url fmt title w :
  (tryYoutubeDlExec env key url fmt title w).1 ≠ Throws
  ∧ (youtubedl env ≠ ExecPending →
     ∃ b, (tryYoutubeDlExec env key url fmt title w).1 = Returns b
          ∧ (b = true ↔ exec_succeeds env title)).
Proof.
  unfold tryYoutubeDlExec, await_youtubedl, readdirSync, exec_succeeds.
  unfold_async. step_update.
  destruct (youtubedl env) eqn:Hexec; simpl; [| |done].
  - destruct (readdir_after_exec env) as [entries|] eqn:Hdir; simpl.
    + destruct (matching_files (sanitizedTitle title) entries)
        as [|file others] eqn:Hfiles; simpl.
      * split; [done|]. intros _. exists false. split; [done|].
        split; [done|]. intros (_ & entries' & [= <-] & Hne). congruence.
      * step_update. split; [done|]. intros _. exists true. split; [done|].
        split; [|done]. intros _. split; [done|]. exists entries.
        split; [done|]. by rewrite Hfiles.
    + split; [done|]. intros _. exists false. split; [done|].
      split; [done | by intros (_ & ? & ? & _)].
  - split; [done|]. intros _. exists false. split; [done|].
    split; [done | by intros (? & _)].
Qed.

Lemma tryEnhancedYtDlp_outcome env key url fmt title w :
  (child env ≠ SpawnThrows → (tryEnhancedYtDlp env key url fmt title w).1 ≠ Throws)
  ∧ (child env ≠ SpawnThrows → child env ≠ NeverCloses →
     (child env = Closed (Some 0%Z) → readdir_after_close env ≠ None) →
     ∃ b, (tryEnhancedYtDlp env key url fmt title w).1 = Returns b
          ∧ (b = true ↔ ytdlp_succeeds env title)).
Proof.
  unfold tryEnhancedYtDlp, ytdlp_download, on_close, ytdlp_succeeds.
  unfold_async. step_update.
  destruct (child env) as [| |code|] eqn:Hchild; simpl; [done| | |done].
  - split; [done|]. intros _ _ _. exists false. split; [done|].
    split; [done | by intros (? & _)].
  - case_bool_decide as Hcode; simpl.
    + subst code.
      destruct (readdir_after_close env) as [entries|] eqn:Hdir; simpl.
      * destruct (matching_files (sanitizedTitle title) entries)
          as [|file others] eqn:Hfiles; simpl.
        -- split; [done|]. intros _ _ _. exists false. split; [done|].
           split; [done|]. intros (_ & entries' & [= <-] & Hne). congruence.
        -- step_update. split; [done|]. intros _ _ _. exists true. split; [done|].
           split; [|done]. intros _. split; [done|]. exists entries.
           split; [done|]. by rewrite Hfiles.
      * split; [done|]. intros _ _ Hlist. by destruct Hlist.
    + split; [done|]. intros _ _ _. exists false. split; [done|].
      split; [done|]. intros ([= ->] & _). done.
Qed.

(** [spawn] throwing inside the promise leaves the [try] block of
    [tryEnhancedYtDlp] behind: the executor rejects.  The loop of the
    pipeline catches it. *)
Lemma tryEnhancedYtDlp_rejects_when_spawn_throws env key url fmt title w :
  child env = SpawnThrows → (tryEnhancedYtDlp env key url fmt title w).1 = Throws.
Proof.
  intros Hchild. unfold tryEnhancedYtDlp, ytdlp_download. unfold_async.
  step_update. by rewrite Hchild.
Qed.

(** C6, as the claim has it, fails: while the download of ytdl-core stalls,
    [tryYtdlCore] resolves to nothing. *)
Lemma tryYtdlCore_pending_while_stalled :
  (tryYtdlCore env_stalled "job-1" "https://www.youtube.com/watch?v=abc"
     "mp4-720p" "Sample clip" sample_world).1 = Pending.
Proof. reflexivity. Qed.

(** C6, amended. [tryYtdlCore] and [tryYoutubeDlExec] never reject, and
    [tryEnhancedYtDlp] does not when [spawn] returns a child.  When moreover
    the mechanisms settle, each executor resolves to a boolean, which is
    [true] exactly when its mechanism produced a file: an invalid URL, a
    failed lookup, a stream or write error, a nonzero exit and a missing
    output file all give [false]. *)
Theorem executors_resolve_when_mechanism_settles (env : Env)
    (downloadId url format title : string) (w : World) :
  (tryYtdlCore env downloadId url format title w).1 ≠ Throws
  ∧ (tryYoutubeDlExec env downloadId url format title w).1 ≠ Throws
  ∧ (child env ≠ SpawnThrows →
     (tryEnhancedYtDlp env downloadId url format title w).1 ≠ Throws)
  ∧ (settles env → child env ≠ SpawnThrows →
     ∃ b1 b2 b3,
       (tryYtdlCore env downloadId url format title w).1 = Returns b1
       ∧ (b1 = true ↔ ytdl_succeeds env url)
       ∧ (tryYoutubeDlExec env downloadId url format title w).1 = Returns b2
       ∧ (b2 = true ↔ exec_succeeds env title)
       ∧ (tryEnhancedYtDlp env downloadId url format title w).1 = Returns b3
       ∧ (b3 = true ↔ ytdlp_succeeds env title)).
Proof.
  destruct (tryYtdlCore_outcome env downloadId url format title w) as [H1 R1].
  destruct (tryYoutubeDlExec_outcome env downloadId url format title w) as [H2 R2].
  destruct (tryEnhancedYtDlp_outcome env downloadId url format title w) as [H3 R3].
  repeat split; try done.
  intros (Hinfo & Hend & Hexec & Hchild & Hlist) Hspawn.
  destruct (R1 Hinfo Hend) as (b1 & ? & ?).
  destruct (R2 Hexec) as (b2 & ? & ?).
  destruct (R3 Hspawn Hchild Hlist) as (b3 & ? & ?).
  exists b1, b2, b3. done.
Qed.

Lemma executors_resolve_witness :
  ∃ b1 b2 b3,
    (tryYtdlCore env_third_succeeds "job-1" "https://www.youtube.com/watch?v=abc"
       "mp4-720p" "Sample clip" sample_world).1 = Returns b1
    ∧ (tryYoutubeDlExec env_third_succeeds "job-1" "https://www.youtube.com/watch?v=abc"
         "mp4-720p" "Sample clip" sample_world).1 = Returns b2
    ∧ (tryEnhancedYtDlp env_third_succeeds "job-1" "https://www.youtube.com/watch?v=abc"
         "mp4-720p" "Sample clip" sample_world).1 = Returns b3.
Proof.
  destruct (executors_resolve_when_mechanism_settles env_third_succeeds "job-1"
              "https://www.youtube.com/watch?v=abc" "mp4-720p" "Sample clip"
              sample_world) as (_ & _ & _ & Hsettled).
  destruct Hsettled as (b1 & b2 & b3 & H1 & _ & H2 & _ & H3 & _).
  - unfold settles. simpl. repeat split; try discriminate.
  - discriminate.
  - exists b1, b2, b3. by repeat split.
Defined.

Lemma first_success_witness :
  (pipeline env_third_succeeds
     (strategies_of env_third_succeeds "job-1" "https://www.youtube.com/watch?v=abc"
        "mp4-720p" "Sample clip") "job-1" sample_world).2
  = [Invoked 0; Delayed 2000; Invoked 1; Delayed 2000; Invoked 2].
Proof.
  apply (first_success_stops_pipeline env_third_succeeds
           (strategies_of env_third_succeeds "job-1"
              "https://www.youtube.com/watch?v=abc" "mp4-720p" "Sample clip")
           "job-1" sample_world 2).
  - reflexivity.
  - reflexivity.
  - intros [|[|j]] Hj; [left; reflexivity | left; reflexivity | lia].
Defined.

Lemma all_fail_witness :
  ∃ w' steps d,
    pipeline env_all_fail
      (strategies_of env_all_fail "job-1" "https://www.youtube.com/watch?v=abc"
         "mp4-720p" "Sample clip") "job-1" sample_world
    = (Returns (), w', steps)
    ∧ downloads w' !! "job-1" = Some d
    ∧ status d = failed ∧ progress d = Val (Num 0).
Proof.
  apply all_strategies_fail_marks_failed.
  - by exists sample_record.
  - apply strategies_of_keep.
  - intros [|[|[|j]]] Hj; [left; reflexivity .. | simpl in Hj; lia].
Defined.

(** ** The scenarios of the specification *)

(** Strategies 1 and 2 fail and strategy 3 leaves a file: the record ends
    [completed] with progress 100 and the path of the file. *)
Example third_strategy_completes :
  let w := (job env_third_succeeds "job-1" 0 sample_body ∅).1.2 in
  (λ d, (status d, progress d, filePath d)) <$> downloads w !! "job-1"
  = Some (completed, Val (Num 100), Val "/app/downloads/Sample_clip.mp4")
  ∧ status <$> history "job-1" w
    = [pending; downloading; downloading; downloading; downloading; completed].
Proof. split; reflexivity. Qed.

(** All three strategies fail: the record ends [failed] with progress 0. *)
Example all_strategies_fail :
  let w := (job env_all_fail "job-1" 0 sample_body ∅).1.2 in
  (λ d, (status d, progress d, filePath d)) <$> downloads w !! "job-1"
  = Some (failed, Val (Num 0), Null)
  ∧ (job env_all_fail "job-1" 0 sample_body ∅).2
    = [Invoked 0; Delayed 2000; Invoked 1; Delayed 2000; Invoked 2].
Proof. split; reflexivity. Qed.

(** The rejection of [tryEnhancedYtDlp] when [spawn] throws is caught by the
    loop: the job ends [failed] like any other exhausted one. *)
Example spawn_exception_is_absorbed :
  let w := (job env_spawn_throws "job-1" 0 sample_body ∅).1.2 in
  (tryEnhancedYtDlp env_spawn_throws "job-1" "u" "mp4" "t" sample_world).1 = Throws
  ∧ status <$> downloads w !! "job-1" = Some failed.
Proof. split; reflexivity. Qed.

(** A stalled download leaves the job [downloading] for good. *)
Example stalled_job_stays_downloading :
  let r := job env_stalled "job-1" 0 sample_body ∅ in
  status <$> downloads r.1.2 !! "job-1" = Some downloading
  ∧ r.2 = [Invoked 0].
Proof. split; reflexivity. Qed.

(** ** The JavaScript [Map] *)

Section JsMapFacts.
Context {V : Type}.
Implicit Types (m : list (string * V)) (k : string) (v : V).

Lemma eqb_string_true k k' : String.eqb k k' = true ↔ k = k'.
Proof. apply String.eqb_eq. Qed.

Lemma eqb_string_false k k' : String.eqb k k' = false ↔ k ≠ k'.
Proof. apply String.eqb_neq. Qed.

Lemma get_set_eq k v m : JsMap.get k (JsMap.set k v m) = Some v.
Proof.
  induction m as [|[k0 v0] rest IH]; simpl.
  - by rewrite String.eqb_refl.
  - destruct (String.eqb k0 k) eqn:E; simpl; by rewrite E.
Qed.

Lemma get_set_ne k k' v m :
  k ≠ k' → JsMap.get k' (JsMap.set k v m) = JsMap.get k' m.
Proof.
  intros Hne. induction m as [|[k0 v0] rest IH]; simpl.
  - by apply eqb_string_false in Hne as ->.
  - destruct (String.eqb k0 k) eqn:E; simpl.
    + apply eqb_string_true in E as ->. by apply eqb_string_false in Hne as ->.
    + by rewrite IH.
Qed.

Lemma get_None_keys k m : JsMap.get k m = None ↔ k ∉ JsMap.keys m.
Proof.
  unfold JsMap.keys. induction m as [|[k0 v0] rest IH]; simpl.
  - split; [intros _; apply not_elem_of_nil | done].
  - rewrite not_elem_of_cons. destruct (String.eqb k0 k) eqn:E.
    + apply eqb_string_true in E as ->. split; [done | by intros [? _]].
    + apply eqb_string_false in E. rewrite IH. split; [done | by intros [_ ?]].
Qed.

Lemma get_Some_elem k v m : JsMap.get k m = Some v → (k, v) ∈ m.
Proof.
  induction m as [|[k0 v0] rest IH]; simpl; [done|].
  destruct (String.eqb k0 k) eqn:E.
  - apply eqb_string_true in E as ->. intros [= ->]. apply elem_of_cons. by left.
  - intros H. apply elem_of_cons. right. by apply IH.
Qed.

Lemma elem_get k v m : NoDup (JsMap.keys m) → (k, v) ∈ m → JsMap.get k m = Some v.
Proof.
  unfold JsMap.keys. induction m as [|[k0 v0] rest IH]; simpl.
  - intros _ H. by apply elem_of_nil in H.
  - intros Hnd H. apply NoDup_cons in Hnd as [Hk0 Hnd].
    apply elem_of_cons in H as [[= -> ->]|H].
    + by rewrite String.eqb_refl.
    + destruct (String.eqb k0 k) eqn:E; [|by apply IH].
      apply eqb_string_true in E as ->. destruct Hk0.
      apply list_elem_of_fmap. by exists (k, v).
Qed.

(** [set] on a new key appends; on a present key it keeps the keys. *)
Lemma set_fresh k v m : JsMap.get k m = None → JsMap.set k v m = m ++ [(k, v)].
Proof.
  induction m as [|[k0 v0] rest IH]; simpl; [done|].
  destruct (String.eqb k0 k); [done|]. intros H. by rewrite IH.
Qed.

Lemma keys_set_present k v m :
  is_Some (JsMap.get k m) → JsMap.keys (JsMap.set k v m) = JsMap.keys m.
Proof.
  unfold JsMap.keys. induction m as [|[k0 v0] rest IH]; simpl; [by intros [? ?]|].
  destruct (String.eqb k0 k) eqn:E; simpl; [done|].
  intros H. f_equal. by apply IH.
Qed.

Lemma set_NoDup k v m : NoDup (JsMap.keys m) → NoDup (JsMap.keys (JsMap.set k v m)).
Proof.
  intros Hnd. destruct (JsMap.get k m) as [v0|] eqn:Hget.
  - rewrite keys_set_present; [done | by rewrite Hget].
  - rewrite set_fresh by done. unfold JsMap.keys in *. rewrite fmap_app. simpl.
    apply NoDup_app. split; [done|]. split; [|apply NoDup_singleton].
    intros x Hx Hx'. apply list_elem_of_singleton in Hx' as ->.
    by apply get_None_keys in Hget.
Qed.

Lemma to_gmap_get k m : JsMap.to_gmap m !! k = JsMap.get k m.
Proof.
  unfold JsMap.to_gmap. induction m as [|[k0 v0] rest IH]; simpl; [done|].
  destruct (String.eqb k0 k) eqn:E.
  - apply eqb_string_true in E as ->. apply lookup_insert_eq.
  - apply eqb_string_false in E. by rewrite lookup_insert_ne.
Qed.

Lemma to_gmap_set k v m : JsMap.to_gmap (JsMap.set k v m) = <[k := v]> (JsMap.to_gmap m).
Proof.
  unfold JsMap.to_gmap. induction m as [|[k0 v0] rest IH]; simpl; [done|].
  destruct (String.eqb k0 k) eqn:E; simpl.
  - apply eqb_string_true in E as ->. by rewrite insert_insert_eq.
  - apply eqb_string_false in E. rewrite IH. by apply insert_insert_ne.
Qed.
End JsMapFacts.

(** ** The users *)

(** X1. After [createUser] the new user is found under its id, with the
    submitted name and password; the users under other ids are found as
    before. *)
Theorem createUser_then_getUser (uuid : string) (ins : Users.InsertUser)
    (users : list (string * Users.User)) :
  Users.getUser uuid (Users.createUser uuid ins users).2
  = Some (Users.createUser uuid ins users).1
  ∧ (Users.createUser uuid ins users).1
    = Users.mkUser uuid (Users.ins_username ins) (Users.ins_password ins)
  ∧ ∀ other, other ≠ uuid →
      Users.getUser other (Users.createUser uuid ins users).2
      = Users.getUser other users.
Proof.
  unfold Users.getUser, Users.createUser. simpl. split; [|split].
  - apply get_set_eq.
  - done.
  - intros other Hne. by apply get_set_ne.
Qed.

Lemma find_first {A} (p : A → bool) (l : list A) :
  match List.find p l with
  | Some x =>
      p x = true
      ∧ ∃ before after, l = before ++ x :: after ∧ Forall (λ y, p y = false) before
  | None => Forall (λ y, p y = false) l
  end.
Proof.
  induction l as [|a l IH]; simpl; [constructor|].
  destruct (p a) eqn:Hp.
  - split; [done|]. exists [], l. split; [done | constructor].
  - destruct (List.find p l) as [x|].
    + destruct IH as (Hx & before & after & -> & Hbefore).
      split; [done|]. exists (a :: before), after. split; [done|].
      by constructor.
    + by constructor.
Qed.

(** X2. [getUserByUsername] answers with a stored user of that name, the one
    inserted first when several have it, and with [undefined] only when no
    stored user has the name. *)
Theorem getUserByUsername_first_match (name : string)
    (users : list (string * Users.User)) :
  match Users.getUserByUsername name users with
  | Some user =>
      Users.username user = name
      ∧ ∃ before after,
          JsMap.values users = before ++ user :: after
          ∧ Forall (λ earlier, Users.username earlier ≠ name) before
  | None => Forall (λ user, Users.username user ≠ name) (JsMap.values users)
  end.
Proof.
  unfold Users.getUserByUsername.
  pose proof (find_first (λ user, String.eqb (Users.username user) name)
                (JsMap.values users)) as H.
  destruct (List.find _ _) as [user|].
  - destruct H as (Hname & before & after & Heq & Hbefore).
    split; [by apply eqb_string_true|]. exists before, after. split; [done|].
    eapply Forall_impl; [done|]. intros y. apply eqb_string_false.
  - eapply Forall_impl; [done|]. intros y. apply eqb_string_false.
Qed.

Lemma find_app_l {A} (p : A → bool) (l l' : list A) x :
  List.find p l = Some x → List.find p (l ++ l') = Some x.
Proof.
  induction l as [|a l IH]; simpl; [done|]. by destruct (p a).
Qed.

(** X3. [createUser] does not look at the names already taken: when the
    name of the new user is that of a stored one, both are kept,
    [getUserByUsername] goes on answering with the old one, and the new one
    is reached by its id only. *)
Theorem createUser_keeps_name_owner (uuid : string) (ins : Users.InsertUser)
    (users : list (string * Users.User)) (owner : Users.User) :
  Users.getUser uuid users = None →
  Users.getUserByUsername (Users.ins_username ins) users = Some owner →
  Users.getUserByUsername (Users.ins_username ins)
    (Users.createUser uuid ins users).2 = Some owner
  ∧ JsMap.values (Users.createUser uuid ins users).2
    = JsMap.values users ++ [(Users.createUser uuid ins users).1].
Proof.
  unfold Users.getUser, Users.getUserByUsername, Users.createUser. simpl.
  intros Hfresh Howner. rewrite (set_fresh _ _ _ Hfresh).
  unfold JsMap.values. rewrite fmap_app. simpl. split; [|done].
  by apply find_app_l.
Qed.

Lemma createUser_keeps_name_owner_witness :
  Users.getUserByUsername "ada"
    (Users.createUser "user-2" (Users.mkInsertUser "ada" "other")
       [("user-1", sample_user)]).2 = Some sample_user.
Proof.
  apply (createUser_keeps_name_owner "user-2" (Users.mkInsertUser "ada" "other")
           [("user-1", sample_user)] sample_user); reflexivity.
Defined.

(** ** The listing of the downloads *)

Section Sorting.
Context {A : Type} (compareFn : A → A → Z).

Lemma place_Permutation x l : MapStorage.place compareFn x l ≡ₚ x :: l.
Proof.
  induction l as [|y rest IH]; simpl; [done|].
  destruct (0 <? compareFn x y)%Z; [|done].
  rewrite IH. apply Permutation_swap.
Qed.

Lemma sort_Permutation l : MapStorage.sort compareFn l ≡ₚ l.
Proof.
  unfold MapStorage.sort. induction l as [|x l IH]; simpl; [done|].
  by rewrite place_Permutation, IH.
Qed.
End Sorting.

Lemma place_sorted (key : Download → Z) x l :
  StronglySorted (λ a b, key b ≤ key a)%Z l →
  StronglySorted (λ a b, key b ≤ key a)%Z
    (MapStorage.place (λ a b, key b - key a)%Z x l).
Proof.
  induction 1 as [|y rest Hrest IH Hy]; simpl.
  - repeat constructor.
  - destruct (0 <? key y - key x)%Z eqn:E.
    + apply Z.ltb_lt in E. constructor; [done|].
      rewrite place_Permutation. constructor; [lia | done].
    + apply Z.ltb_ge in E. constructor; [by constructor|].
      constructor; [lia|].
      eapply Forall_impl; [done|]. simpl. intros z Hz. lia.
Qed.

Lemma place_filter (key : Download → Z) t x l :
  filter (λ d, key d = t) (MapStorage.place (λ a b, key b - key a)%Z x l)
  = filter (λ d, key d = t) (x :: l).
Proof.
  induction l as [|y rest IH]; simpl; [done|].
  destruct (0 <? key y - key x)%Z eqn:E; [|done].
  apply Z.ltb_lt in E.
  rewrite (filter_cons _ y), IH, !filter_cons.
  repeat case_decide; try done; lia.
Qed.

Lemma getAllDownloads_Permutation (entries : list (string * Download)) :
  MapStorage.getAllDownloads entries ≡ₚ JsMap.values entries.
Proof. apply sort_Permutation. Qed.

(** X4. [getAllDownloads], the answer of [GET /api/downloads], holds every
    stored record exactly once, the most recently created first; records
    created at the same time keep the order in which they were inserted. *)
Theorem getAllDownloads_newest_first (entries : list (string * Download)) :
  MapStorage.getAllDownloads entries ≡ₚ JsMap.values entries
  ∧ StronglySorted (λ a b, MapStorage.created_time b ≤ MapStorage.created_time a)%Z
      (MapStorage.getAllDownloads entries)
  ∧ ∀ t, filter (λ d, MapStorage.created_time d = t)
           (MapStorage.getAllDownloads entries)
         = filter (λ d, MapStorage.created_time d = t) (JsMap.values entries).
Proof.
  split; [apply getAllDownloads_Permutation|].
  unfold MapStorage.getAllDownloads, MapStorage.sort.
  induction (JsMap.values entries) as [|x l [IHs IHf]]; simpl.
  - split; [constructor | done].
  - split; [by apply place_sorted|].
    intros t. by rewrite place_filter, !filter_cons, IHf.
Qed.

(** X5. The listing and the lookup show the same records: on a [Map] (no key
    twice) a record is in the list of [getAllDownloads] exactly when
    [getDownload] finds it under some key, and the list has one record per
    key. *)
Theorem getAllDownloads_lists_what_getDownload_finds
    (entries : list (string * Download)) :
  NoDup (JsMap.keys entries) →
  (∀ d, d ∈ MapStorage.getAllDownloads entries
        ↔ ∃ key, MapStorage.getDownload key entries = Some d)
  ∧ length (MapStorage.getAllDownloads entries) = length entries.
Proof.
  intros Hnd.
  pose proof (getAllDownloads_Permutation entries) as Hperm.
  split.
  - intros d. rewrite Hperm. unfold JsMap.values, MapStorage.getDownload.
    rewrite list_elem_of_fmap. split.
    + intros ([k d'] & -> & Hin). exists k. by apply elem_get.
    + intros [k Hk]. exists (k, d). split; [done | by apply get_Some_elem].
  - rewrite Hperm. unfold JsMap.values. by rewrite length_fmap.
Qed.

Lemma getAllDownloads_lists_witness :
  length (MapStorage.getAllDownloads [("job-1", sample_record)]) = 1.
Proof.
  exact (proj2 (getAllDownloads_lists_what_getDownload_finds
                  [("job-1", sample_record)] (NoDup_singleton _))).
Defined.

(** ** The store: round trips and composition *)

(** X6. After [createDownload] the new record is found under its id, the
    records under other ids are found as before, and the ids of the store
    are the old ones and the new one. *)
Theorem createDownload_then_getDownload (uuid : string) (now : Z)
    (ins : InsertDownload) (store : gmap string Download) :
  getDownload uuid (createDownload uuid now ins store).2
  = Some (createDownload uuid now ins store).1
  ∧ (∀ other, other ≠ uuid →
       getDownload other (createDownload uuid now ins store).2
       = getDownload other store)
  ∧ dom (createDownload uuid now ins store).2 = {[uuid]} ∪ dom store.
Proof.
  unfold getDownload, createDownload. simpl. split; [|split].
  - apply lookup_insert_eq.
  - intros other Hne. by apply lookup_insert_ne.
  - apply dom_insert_L.
Qed.

Lemma override_twice {A} (old : A) (n1 n2 : option A) :
  override (override old n1) n2 = override old (n2 ∪ n1).
Proof. by destruct n1, n2. Qed.

Lemma spread_twice d u1 u2 :
  spread (spread d u1) u2 = spread d (merge_updates u1 u2).
Proof. unfold spread, merge_updates. simpl. by rewrite !override_twice. Qed.

Lemma merge_updates_idem u : merge_updates u u = u.
Proof.
  destruct u as [a b c d e f g h i j k l m]. unfold merge_updates. simpl.
  by destruct a, b, c, d, e, f, g, h, i, j, k, l, m.
Qed.

(** X7. Two [updateDownload] calls on one id in a row are one call with the
    two [updates] spread together, the later values winning; repeating a
    call changes nothing. *)
Theorem updateDownload_twice (key : string) (u1 u2 : Updates)
    (store : gmap string Download) :
  updateDownload key u2 (updateDownload key u1 store).2
  = updateDownload key (merge_updates u1 u2) store
  ∧ updateDownload key u1 (updateDownload key u1 store).2
    = updateDownload key u1 store.
Proof.
  assert (Htwice : ∀ v1 v2,
            updateDownload key v2 (updateDownload key v1 store).2
            = updateDownload key (merge_updates v1 v2) store).
  { intros v1 v2. unfold updateDownload.
    destruct (store !! key) as [d|] eqn:Hd; simpl.
    - rewrite lookup_insert_eq, insert_insert_eq. by rewrite spread_twice.
    - by rewrite Hd. }
  split; [apply Htwice|]. by rewrite Htwice, merge_updates_idem.
Qed.

(** X8. [MemStorage] does not depend on the order of its [Map]: read as a
    finite map, the [Map] after [createDownload] or [updateDownload] is the
    finite map after the same call, with the same result, and [getDownload]
    finds the same record. *)
Theorem ordered_store_is_the_store (uuid key : string) (now : Z)
    (ins : InsertDownload) (updates : Updates)
    (entries : list (string * Download)) :
  MapStorage.getDownload key entries = getDownload key (JsMap.to_gmap entries)
  ∧ (MapStorage.createDownload uuid now ins entries).1
    = (createDownload uuid now ins (JsMap.to_gmap entries)).1
  ∧ JsMap.to_gmap (MapStorage.createDownload uuid now ins entries).2
    = (createDownload uuid now ins (JsMap.to_gmap entries)).2
  ∧ (MapStorage.updateDownload key updates entries).1
    = (updateDownload key updates (JsMap.to_gmap entries)).1
  ∧ JsMap.to_gmap (MapStorage.updateDownload key updates entries).2
    = (updateDownload key updates (JsMap.to_gmap entries)).2.
Proof.
  unfold MapStorage.getDownload, getDownload, MapStorage.createDownload,
    createDownload, MapStorage.updateDownload, updateDownload.
  rewrite to_gmap_get. simpl. rewrite to_gmap_set.
  repeat split; try done.
  - by destruct (JsMap.get key entries).
  - destruct (JsMap.get key entries); simpl; [apply to_gmap_set | done].
Qed.

(** ** The other handlers *)



Lemma parse_picked props props' :
  Forall (λ key, own_property key props = own_property key props') picked_keys →
  insertDownloadSchema_parse (JObject props) = insertDownloadSchema_parse (JObject props').
Proof.
  intros H. unfold picked_keys in H.
  repeat (apply Forall_cons in H as [? H]).
  unfold insertDownloadSchema_parse.
  repeat match goal with
         | Hkey : own_property _ props = _ |- _ => rewrite Hkey; clear Hkey
         end.
  reflexivity.
Qed.

(** X10. [POST /api/download] reads the eight keys of the schema and no
    other: two bodies that agree on them are answered in the same way and
    leave the same store, so no key of the body can set [id], [status],
    [progress], [filePath] or [createdAt]. *)
Theorem submit_reads_picked_keys_only (uuid : string) (now : Z)
    (props props' : list (string * json)) (w : World) :
  Forall (λ key, own_property key props = own_property key props') picked_keys →
  post_download uuid now (JObject props) w = post_download uuid now (JObject props') w.
Proof.
  intros H. unfold post_download. by rewrite (parse_picked props props' H).
Qed.

Lemma submit_reads_picked_keys_only_witness :
  post_download "job-1" 0
    (JObject [("status", JString "completed"); ("filePath", JString "/etc/passwd");
              ("youtubeUrl", JString "u"); ("title", JString "t")]) sample_world
  = post_download "job-1" 0
      (JObject [("youtubeUrl", JString "u"); ("title", JString "t")]) sample_world.
Proof.
  apply submit_reads_picked_keys_only. unfold picked_keys.
  repeat constructor.
Defined.

(** ** The analysis handler *)

Lemma prefix_spec (p s : string) :
  String.prefix p s = true ↔ ∃ post, s = p +:+ post.
Proof.
  revert s. induction p as [|c p IH]; intros [|c' s]; simpl.
  - split; [by exists "" | done].
  - split; [by exists (String c' s) | done].
  - split; [done | by intros [? ?]].
  - destruct (Ascii.ascii_dec c c') as [->|Hne]; simpl.
    + rewrite IH. split.
      * intros [post ->]. by exists post.
      * intros [post [= ->]]. by exists post.
    + split; [done|]. intros [post [= ? _]]. done.
Qed.

Lemma includes_spec (needle hay : string) :
  includes needle hay = true ↔ ∃ pre post, hay = pre +:+ needle +:+ post.
Proof.
  induction hay as [|c hay IH].
  - cbn [includes]. rewrite orb_false_r, prefix_spec. split.
    + intros [post ->]. by exists "", post.
    + intros (pre & post & H). destruct pre; [by exists post | done].
  - cbn [includes]. rewrite orb_true_iff, prefix_spec, IH. split.
    + intros [[post ->]|(pre & post & ->)].
      * by exists "", post.
      * by exists (String c pre), post.
    + intros (pre & post & H). destruct pre as [|c' pre]; simpl in H.
      * left. by exists post.
      * right. injection H as _ ->. by exists pre, post.
Qed.

Lemma post_analyze_url {P} is_url (render : string → option P) child body :
  (Handlers.post_analyze is_url render child body).1
  = Handlers.videoAnalysisSchema_parse is_url body.
Proof.
  unfold Handlers.post_analyze.
  destruct (Handlers.videoAnalysisSchema_parse is_url body) as [url|]; [|done].
  destruct child as [| |code output|]; simpl; try done.
  destruct (negb (bool_decide (code = Some 0%Z))); [done|].
  destruct (Handlers.jsonLine output) as [line|]; [|done].
  by destruct (render line).
Qed.

(** X11. [POST /api/analyze] starts yt-dlp only on the [url] string of the
    body, and only when it passes the URL check and has ["youtube.com/watch"]
    or ["youtu.be/"] somewhere in it; every other body is answered with 400
    without starting anything. *)
Theorem analyze_starts_only_on_validated_url {P} (is_url : string → bool)
    (render : string → option P) (child : Handlers.Analysis) (body : json) :
  match (Handlers.post_analyze is_url render child body).1 with
  | Some url =>
      (∃ props, body = JObject props ∧ own_property "url" props = Some (JString url))
      ∧ is_url url = true
      ∧ ∃ pre post, url = pre +:+ "youtube.com/watch" +:+ post
                    ∨ url = pre +:+ "youtu.be/" +:+ post
  | None => (Handlers.post_analyze is_url render child body).2 = Handlers.Answered400
  end.
Proof.
  rewrite post_analyze_url. unfold Handlers.post_analyze.
  destruct (Handlers.videoAnalysisSchema_parse is_url body) as [url|] eqn:Hparse;
    [|done].
  unfold Handlers.videoAnalysisSchema_parse in Hparse.
  destruct body as [| | | | |props]; try done.
  destruct (own_property "url" props) as [[| | |url'| |]|] eqn:Hurl; try done.
  unfold videoAnalysisSchema_accepts, youtube_pattern in Hparse.
  destruct (is_url url') eqn:Hsyntax; simpl in Hparse; [|done].
  destruct (includes "youtube.com/watch" url') eqn:Hwatch; simpl in Hparse.
  - injection Hparse as <-.
    apply includes_spec in Hwatch as (pre & post & Hpre).
    split; [eauto | split; [done | eauto]].
  - destruct (includes "youtu.be/" url') eqn:Hshort; [|done].
    injection Hparse as <-.
    apply includes_spec in Hshort as (pre & post & Hpre).
    split; [eauto | split; [done | eauto]].
Qed.

(** X12. [POST /api/analyze] answers 200 exactly when the body is valid, the
    child has closed with code 0 and the first line of its output that
    starts with an opening brace, blanks apart, renders; that line is a line
    of the trimmed output and no line before it starts with a brace.  A
    valid body whose child closes with another code, or with none, is
    answered with 500 whatever was printed, and a synchronous failure of
    [spawn] with 400. *)
Theorem analyze_answers {P} (is_url : string → bool) (render : string → option P)
    (child : Handlers.Analysis) (body : json) :
  (∀ payload,
     (Handlers.post_analyze is_url render child body).2 = Handlers.Answered200 payload
     ↔ ∃ url output line,
         Handlers.videoAnalysisSchema_parse is_url body = Some url
         ∧ child = Handlers.AnalysisClosed (Some 0%Z) output
         ∧ Handlers.jsonLine output = Some line ∧ render line = Some payload)
  ∧ (∀ output line,
       Handlers.jsonLine output = Some line →
       String.prefix "{" (Handlers.trim line) = true
       ∧ ∃ before after,
           Handlers.split_lines (Handlers.trim output) = before ++ line :: after
           ∧ Forall (λ l, String.prefix "{" (Handlers.trim l) = false) before)
  ∧ (∀ url code output,
       Handlers.videoAnalysisSchema_parse is_url body = Some url →
       child = Handlers.AnalysisClosed code output → code ≠ Some 0%Z →
       (Handlers.post_analyze is_url render child body).2
       = Handlers.Answered500
           "Failed to analyze video. Please check the URL and try again.")
  ∧ ((Handlers.post_analyze is_url render child body).2 = Handlers.Answered400
     ↔ Handlers.videoAnalysisSchema_parse is_url body = None
       ∨ child = Handlers.AnalysisSpawnThrows).
Proof.
  unfold Handlers.post_analyze. split; [|split; [|split]].
  - intros payload.
    destruct (Handlers.videoAnalysisSchema_parse is_url body) as [url|]; simpl.
    2: { split; [done | by intros (? & ? & ? & ? & _)]. }
    destruct child as [| |code output|]; simpl;
      try (split; [done | by intros (? & ? & ? & _ & ? & _)]).
    case_bool_decide as Hcode; simpl.
    + subst code. destruct (Handlers.jsonLine output) as [line|] eqn:Hline.
      * destruct (render line) as [p|] eqn:Hrender; simpl.
        -- split.
           ++ intros [= <-]. by exists url, output, line.
           ++ intros (? & ? & ? & _ & [= <-] & ? & ?). congruence.
        -- split; [done|]. intros (? & ? & ? & _ & [= <-] & ? & ?). congruence.
      * split; [done|]. intros (? & ? & ? & _ & [= <-] & ? & ?). congruence.
    + split; [done|]. intros (? & ? & ? & _ & [= ? ?] & _). congruence.
  - intros output line Hline. unfold Handlers.jsonLine in Hline.
    pose proof (find_first (λ l, String.prefix "{" (Handlers.trim l))
                  (Handlers.split_lines (Handlers.trim output))) as H.
    rewrite Hline in H. done.
  - intros url code output -> -> Hcode. simpl.
    by rewrite bool_decide_eq_false_2.
  - destruct (Handlers.videoAnalysisSchema_parse is_url body) as [url|]; simpl.
    2: { split; [by left | done]. }
    destruct child as [| |code output|]; simpl;
      try (split; [done | by intros [?|?]]).
    + split; [by right | done].
    + destruct (negb (bool_decide (code = Some 0%Z))); simpl;
        [split; [done | by intros [?|?]]|].
      destruct (Handlers.jsonLine output) as [line|];
        [destruct (render line)|]; split; done || by intros [?|?].
Qed.

Lemma analyze_answers_witness :
  (Handlers.post_analyze (λ _, true) (λ line, Some line)
     (Handlers.AnalysisClosed (Some 1%Z) "{}")
     (JObject [("url", JString "https://youtu.be/abc")])).2
  = Handlers.Answered500 "Failed to analyze video. Please check the URL and try again.".
Proof.
  apply (proj1 (proj2 (proj2 (analyze_answers (λ _, true) (λ line, Some line)
                  (Handlers.AnalysisClosed (Some 1%Z) "{}")
                  (JObject [("url", JString "https://youtu.be/abc")]))))
           "https://youtu.be/abc" (Some 1%Z) "{}");
    [reflexivity | reflexivity | discriminate].
Defined.

(** ** Dates *)

(** X13. [formatDate] gives back a string that is not eight characters long
    as it is, and answers ["NaN year ago"] for eight characters that are no
    date.  For a date it answers with a count and a unit: fewer than 30
    ["days"] (always in the plural), 1 ["month"] or 2 to 12 ["months"], 1
    ["year"] or more ["years"]; a date ahead of now is labelled like one as
    far behind. *)
Theorem formatDate_labels (time_of : string → option Z) (now : Z)
    (dateString : string) :
  (String.length dateString ≠ 8 →
     Handlers.formatDate time_of now dateString = dateString)
  ∧ (String.length dateString = 8 → time_of (iso_date dateString) = None →
     Handlers.formatDate time_of now dateString = "NaN year ago")
  ∧ (∀ date, String.length dateString = 8 →
       time_of (iso_date dateString) = Some date →
       ∃ count unit,
         Handlers.formatDate time_of now dateString
         = Handlers.decimal count +:+ " " +:+ unit +:+ " ago"
         ∧ label_of count unit)
  ∧ (∀ delta, Handlers.formatDate (λ _, Some (now + delta)%Z) now dateString
              = Handlers.formatDate (λ _, Some (now - delta)%Z) now dateString).
Proof.
  unfold Handlers.formatDate, iso_date, label_of. split; [|split; [|split]].
  - intros Hlen. by apply Nat.eqb_neq in Hlen as ->.
  - intros -> ->. done.
  - intros date -> ->. simpl.
    set (diffDays := Z.to_N ((Z.abs (now - date) + 86399999) / 86400000)).
    clearbody diffDays.
    destruct (diffDays <? 30)%N eqn:Hdays.
    { apply N.ltb_lt in Hdays. exists diffDays, "days". split; [done | by left]. }
    apply N.ltb_ge in Hdays.
    destruct (diffDays <? 365)%N eqn:Hyear.
    + apply N.ltb_lt in Hyear. unfold Handlers.counted.
      assert (diffDays / 30 < 13)%N by (apply N.Div0.div_lt_upper_bound; lia).
      assert (1 ≤ diffDays / 30)%N by (apply N.div_le_lower_bound; lia).
      destruct (1 <? diffDays / 30)%N eqn:Hplural.
      * apply N.ltb_lt in Hplural. exists (diffDays / 30)%N, "months".
        split; [done|]. right. right. left. split; [done|]. lia.
      * apply N.ltb_ge in Hplural. exists (diffDays / 30)%N, "month".
        split; [done|]. right. left. split; [done|]. lia.
    + apply N.ltb_ge in Hyear. unfold Handlers.counted.
      assert (1 ≤ diffDays / 365)%N by (apply N.div_le_lower_bound; lia).
      destruct (1 <? diffDays / 365)%N eqn:Hplural.
      * apply N.ltb_lt in Hplural. exists (diffDays / 365)%N, "years".
        split; [done|]. do 4 right. split; [done|]. lia.
      * apply N.ltb_ge in Hplural. exists (diffDays / 365)%N, "year".
        split; [done|]. do 3 right. left. split; [done|]. lia.
  - intros delta. destruct (String.length dateString =? 8)%nat; [|done].
    replace (Z.abs (now - (now + delta))) with (Z.abs (now - (now - delta))) by lia.
    done.
Qed.

Lemma formatDate_labels_witness :
  ∃ count unit,
    Handlers.formatDate (λ _, Some 0%Z) (45 * 86400000) "20240101"
    = Handlers.decimal count +:+ " " +:+ unit +:+ " ago"
    ∧ label_of count unit.
Proof.
  apply (proj1 (proj2 (proj2 (formatDate_labels (λ _, Some 0%Z) (45 * 86400000)
                                 "20240101"))) 0%Z); reflexivity.
Defined.

(** ** The steps of the pipeline *)

Lemma continue_steps i n (later : list Executor) (r : LoopExit * World * list Step) :
  i + S (length later) = n →
  (later = [] ∧ r.2 = [])
  ∨ (∃ k, k < length later
          ∧ r.2 = flat_map (λ j, [Invoked j; Delayed 2000]) (seq (S i) k)
                  ++ [Invoked (S i + k)]) →
  ∃ k, k < S (length later)
       ∧ (let '(exit, w2, steps) := r in
          (exit, w2,
           Invoked i :: (if (i <? n - 1)%nat then [Delayed 2000] else []) ++ steps)).2
         = flat_map (λ j, [Invoked j; Delayed 2000]) (seq i k) ++ [Invoked (i + k)].
Proof.
  intros Hn. destruct r as [[exit w2] steps]. simpl.
  intros [[-> ->]|(k & Hk & ->)].
  - exists 0. split; [simpl; lia|].
    replace (i <? n - 1)%nat with false
      by (symmetry; apply Nat.ltb_ge; simpl in Hn; lia).
    simpl. by rewrite Nat.add_0_r.
  - exists (S k). split; [lia|].
    replace (i <? n - 1)%nat with true by (symmetry; apply Nat.ltb_lt; lia).
    simpl. by replace (i + S k) with (S (i + k)) by lia.
Qed.

Lemma try_from_steps : ∀ rest i n w,
  i + length rest = n →
  (rest = [] ∧ (try_from rest i n w).2 = [])
  ∨ ∃ k, k < length rest
         ∧ (try_from rest i n w).2
           = flat_map (λ j, [Invoked j; Delayed 2000]) (seq i k) ++ [Invoked (i + k)].
Proof.
  induction rest as [|strategy later IH]; intros i n w Hn; [by left|].
  right. cbn [try_from].
  specialize (IH (S i) n (strategy w).2).
  simpl in Hn.
  destruct (strategy w) as [[[]| |] w1]; simpl in IH |- *.
  - exists 0. split; [lia|]. by rewrite Nat.add_0_r.
  - apply (continue_steps i n later); [done | apply IH; lia].
  - apply (continue_steps i n later); [done | apply IH; lia].
  - exists 0. split; [lia|]. by rewrite Nat.add_0_r.
Qed.

Lemma pipeline_steps env strategies downloadId w :
  (pipeline env strategies downloadId w).2
  = if negb (outputDir_exists env) && mkdir_throws env then []
    else (try_from strategies 0 (length strategies) (loop_start downloadId w)).2.
Proof.
  unfold pipeline, loop_start.
  destruct (storage_updateDownload downloadId (status_progress downloading 0) w)
    as [c w1]. simpl.
  destruct (negb (outputDir_exists env) && mkdir_throws env).
  - by destruct (storage_updateDownload _ _ w1).
  - destruct (try_from strategies 0 (length strategies) w1) as [[[j| |j] w2] steps];
      simpl; try done.
    by destruct (storage_updateDownload _ _ w2).
Qed.

(** X14. Whatever the strategies do, the pipeline calls them in order from
    the first one without leaving one out, pauses 2000 ms between two calls
    and at no other time, and stops after some call: its steps are none at
    all, or strategies [0..k] in turn with [k] pauses, for a [k] below the
    number of strategies. *)
Theorem pipeline_steps_in_order (env : Env) (strategies : list Executor)
    (downloadId : string) (w : World) :
  (pipeline env strategies downloadId w).2 = []
  ∨ ∃ k, k < length strategies
         ∧ (pipeline env strategies downloadId w).2 = attempts_until k
         ∧ invocations (pipeline env strategies downloadId w).2 = seq 0 (S k)
         ∧ delays (pipeline env strategies downloadId w).2 = replicate k 2000%Z.
Proof.
  rewrite pipeline_steps.
  destruct (negb (outputDir_exists env) && mkdir_throws env); [by left|].
  destruct (try_from_steps strategies 0 (length strategies)
              (loop_start downloadId w) eq_refl)
    as [[_ ->]|(k & Hk & ->)]; [by left|].
  right. exists k. split; [done|]. split; [done|]. split.
  - apply (invocations_attempts 0 k).
  - apply (delays_attempts 0 k).
Qed.

Lemma try_from_stuck k : ∀ rest i n w,
  i + length rest = n →
  attempt rest w k = Some Pending →
  (∀ j, j < k → fails (attempt rest w j)) →
  try_from rest i n w
  = (Stuck (i + k), world_before rest w (S k),
     flat_map (λ j, [Invoked j; Delayed 2000]) (seq i k) ++ [Invoked (i + k)]).
Proof.
  induction k as [|k IH]; intros rest i n w Hn Hk Hbefore.
  - destruct rest as [|strategy later]; [done|].
    rewrite attempt_0 in Hk. injection Hk as Hk.
    rewrite world_before_S, world_before_0. simpl.
    destruct (strategy w) as [c w1]. simpl in *. subst c.
    by rewrite Nat.add_0_r.
  - destruct rest as [|strategy later]; [done|].
    rewrite attempt_S in Hk.
    pose proof (attempt_is_Some _ _ _ _ Hk) as Hlen.
    assert (Hfirst : fails (attempt (strategy :: later) w 0)) by (apply Hbefore; lia).
    rewrite attempt_0 in Hfirst.
    assert (Hpause : (i <? n - 1)%nat = true)
      by (apply Nat.ltb_lt; simpl in Hn; lia).
    assert (Hlater : ∀ j, j < k → fails (attempt later (strategy w).2 j)).
    { intros j Hj. rewrite <- attempt_S. apply Hbefore. lia. }
    rewrite world_before_S. cbn [try_from].
    specialize (IH later (S i) n (strategy w).2).
    destruct (strategy w) as [c w1]. simpl in *.
    rewrite Hpause.
    rewrite IH; [| lia | done | done].
    replace (i + S k) with (S (i + k)) by lia.
    by destruct Hfirst as [[= ->]|[= ->]].
Qed.

(** X15. There is no timeout: when the call of strategy [k] never settles
    after the earlier ones have failed, the pipeline never returns, calls no
    later strategy and writes nothing more, so the record is never marked
    [failed]. *)
Theorem stuck_strategy_blocks_pipeline (env : Env) (strategies : list Executor)
    (downloadId : string) (w : World) (k : nat) :
  negb (outputDir_exists env) && mkdir_throws env = false →
  attempt strategies (loop_start downloadId w) k = Some Pending →
  (∀ j, j < k → fails (attempt strategies (loop_start downloadId w) j)) →
  pipeline env strategies downloadId w
  = (Pending, world_before strategies (loop_start downloadId w) (S k),
     attempts_until k).
Proof.
  intros Hdir Hk Hbefore. unfold pipeline, loop_start in *.
  destruct (storage_updateDownload downloadId (status_progress downloading 0) w)
    as [r w1]. simpl in *.
  rewrite Hdir.
  by rewrite (try_from_stuck k strategies 0 (length strategies) w1 eq_refl
                Hk Hbefore).
Qed.

Lemma stuck_strategy_blocks_pipeline_witness :
  (pipeline env_stalled
     (strategies_of env_stalled "job-1" "https://www.youtube.com/watch?v=abc"
        "mp4-720p" "Sample clip") "job-1" sample_world).1.1 = Pending
  ∧ (pipeline env_stalled
       (strategies_of env_stalled "job-1" "https://www.youtube.com/watch?v=abc"
          "mp4-720p" "Sample clip") "job-1" sample_world).2 = [Invoked 0].
Proof.
  rewrite (stuck_strategy_blocks_pipeline env_stalled
             (strategies_of env_stalled "job-1"
                "https://www.youtube.com/watch?v=abc" "mp4-720p" "Sample clip")
             "job-1" sample_world 0).
  - by split.
  - reflexivity.
  - reflexivity.
  - intros j Hj. lia.
Defined.

(** ** What the pipeline writes *)

Lemma apply_updates_lookup key us : ∀ w d,
  downloads w !! key = Some d →
  downloads (apply_updates key us w) !! key = Some (foldl spread d us).
Proof.
  induction us as [|u us IH]; intros w d Hd; [done|].
  simpl. apply IH. rewrite (storage_updateDownload_found _ _ _ d Hd). simpl.
  apply lookup_insert_eq.
Qed.

Lemma apply_updates_other key other us : ∀ w,
  other ≠ key →
  downloads (apply_updates key us w) !! other = downloads w !! other.
Proof.
  induction us as [|u us IH]; intros w Hne; [done|].
  simpl. rewrite IH by done.
  destruct (downloads w !! key) as [d|] eqn:Hd.
  - rewrite (storage_updateDownload_found _ _ _ d Hd). simpl.
    by rewrite lookup_insert_ne.
  - by rewrite storage_updateDownload_missing.
Qed.

Lemma apply_updates_missing key us w :
  downloads w !! key = None → apply_updates key us w = w.
Proof.
  intros Hd. induction us as [|u us IH]; [done|].
  simpl. by rewrite storage_updateDownload_missing.
Qed.

Lemma in_flight_job_write u : in_flight u → job_write u.
Proof. by left. Qed.

Lemma same_submission_refl d : same_submission d d.
Proof. by repeat split. Qed.

Lemma spread_job_write d0 d u :
  job_write u → same_submission d0 d → same_submission d0 (spread d u).
Proof.
  intros Hu Hd.
  destruct Hu as [[[p ->]|[p ->]]|[[path ->]| ->]]; exact Hd.
Qed.

Lemma foldl_job_writes d0 us : ∀ d,
  Forall job_write us → same_submission d0 d → same_submission d0 (foldl spread d us).
Proof.
  induction us as [|u us IH]; intros d Hus Hd; [done|].
  apply Forall_cons in Hus as [Hu Hus]. simpl.
  apply IH; [done | by apply spread_job_write].
Qed.


Lemma contract_has_path key strategy :
  executor_contract key strategy → path_contract (λ _, True) key strategy.
Proof.
  intros Hc w. destruct (Hc w) as (us & Hus & Hw). exists us. split; [done|].
  unfold records_path_in, writes_of_attempt in *.
  destruct (strategy w).1 as [[]| |]; try done.
  destruct Hw as (before & path & ? & ?). by exists before, path.
Qed.

(** The writes of the loop: those of attempts under way, and the completion
    fields last when a strategy succeeded. *)
Lemma try_from_writes ok key : ∀ rest i n w,
  Forall (path_contract ok key) rest →
  ∃ flight,
    Forall in_flight flight
    ∧ match (try_from rest i n w).1.1 with
      | Succeeded _ =>
          ∃ path, ok path
                  ∧ (try_from rest i n w).1.2
                    = apply_updates key (flight ++ [completion path]) w
      | _ => (try_from rest i n w).1.2 = apply_updates key flight w
      end.
Proof.
  induction rest as [|strategy later IH]; intros i n w Hall.
  { exists []. by split. }
  apply Forall_cons in Hall as [Hc Hlater].
  destruct (Hc w) as (us & Hus & Hrec).
  specialize (IH (S i) n (strategy w).2 Hlater) as (flight & Hflight & Hloop).
  cbn [try_from].
  destruct (strategy w) as [[[]| |] w1]; simpl in *.
  - destruct Hrec as (before & path & -> & Hbefore & Hpath).
    exists before. split; [done|]. by exists path.
  - destruct (try_from later (S i) n w1) as [[exit w2] steps]. simpl in *.
    exists (us ++ flight). split; [by apply Forall_app|].
    destruct exit as [j| |j].
    + destruct Hloop as (path & Hpath & ->). exists path. split; [done|].
      by rewrite Hus, <- app_assoc, !apply_updates_app.
    + by rewrite Hloop, Hus, apply_updates_app.
    + by rewrite Hloop, Hus, apply_updates_app.
  - destruct (try_from later (S i) n w1) as [[exit w2] steps]. simpl in *.
    exists (us ++ flight). split; [by apply Forall_app|].
    destruct exit as [j| |j].
    + destruct Hloop as (path & Hpath & ->). exists path. split; [done|].
      by rewrite Hus, <- app_assoc, !apply_updates_app.
    + by rewrite Hloop, Hus, apply_updates_app.
    + by rewrite Hloop, Hus, apply_updates_app.
  - exists us. by split.
Qed.

(** The writes of the pipeline. *)
Lemma pipeline_writes ok env strategies key w :
  Forall (path_contract ok key) strategies →
  ∃ flight,
    Forall in_flight flight
    ∧ match (pipeline env strategies key w).1.1 with
      | Returns _ =>
          (∃ path, ok path
                   ∧ (pipeline env strategies key w).1.2
                     = apply_updates key
                         (status_progress downloading 0 :: flight ++ [completion path]) w)
          ∨ (pipeline env strategies key w).1.2
            = apply_updates key
                (status_progress downloading 0 :: flight ++ [status_progress failed 0]) w
      | _ => (pipeline env strategies key w).1.2
             = apply_updates key (status_progress downloading 0 :: flight) w
      end.
Proof.
  intros Hall. unfold pipeline.
  destruct (storage_updateDownload key (status_progress downloading 0) w)
    as [c w1] eqn:Hw1.
  apply storage_updateDownload_inv in Hw1 as [_ ->].
  destruct (negb (outputDir_exists env) && mkdir_throws env).
  - exists []. split; [done|].
    destruct (storage_updateDownload key (status_progress failed 0) _)
      as [c2 w2] eqn:Hw2.
    apply storage_updateDownload_inv in Hw2 as [_ ->]. simpl. by right.
  - destruct (try_from_writes ok key strategies 0 (length strategies)
                (apply_updates key [status_progress downloading 0] w) Hall)
      as (flight & Hflight & Hloop).
    exists flight. split; [done|].
    destruct (try_from strategies 0 (length strategies) _) as [[[j| |j] w2] steps];
      cbn [fst snd] in *.
    + destruct Hloop as (path & Hpath & ->). left. by exists path.
    + destruct (storage_updateDownload key (status_progress failed 0) w2)
        as [c3 w3] eqn:Hw3.
      apply storage_updateDownload_inv in Hw3 as [_ ->]. cbn [fst snd]. right.
      rewrite Hloop.
      change (status_progress downloading 0 :: flight ++ [status_progress failed 0])
        with ([status_progress downloading 0] ++ flight ++ [status_progress failed 0]).
      by rewrite !apply_updates_app.
    + done.
Qed.

Lemma pipeline_job_writes env strategies key w :
  Forall (executor_contract key) strategies →
  ∃ us, (pipeline env strategies key w).1.2 = apply_updates key us w
        ∧ Forall job_write us.
Proof.
  intros Hall.
  destruct (pipeline_writes (λ _, True) env strategies key w) as (flight & Hflight & Hw).
  { eapply Forall_impl; [done|]. intros s. apply contract_has_path. }
  assert (Hstart : job_write (status_progress downloading 0))
    by (left; left; eauto).
  assert (Hjob : Forall job_write flight)
    by (eapply Forall_impl; [done|]; apply in_flight_job_write).
  destruct (pipeline env strategies key w).1.1.
  - destruct Hw as [(path & _ & ->)| ->]; eexists; (split; [done|]);
      apply Forall_cons; (split; [done|]); apply Forall_app; (split; [done|]);
      apply Forall_singleton.
    + right. left. eauto.
    + by right; right.
  - eexists. split; [done|]. by apply Forall_cons.
  - eexists. split; [done|]. by apply Forall_cons.
Qed.

(** X16. A pipeline whose executors keep to their contract touches the
    record of its own job and nothing else: every other record stays as it
    was; the job's record keeps the fields of the submission ([id],
    [youtubeUrl], [title], the descriptive fields, [format], [createdAt]);
    and when there is no record under the id, nothing at all is written. *)
Theorem pipeline_touches_own_record_only (env : Env) (strategies : list Executor)
    (key : string) (w : World) :
  Forall (executor_contract key) strategies →
  (∀ other, other ≠ key →
     downloads (pipeline env strategies key w).1.2 !! other = downloads w !! other)
  ∧ match downloads w !! key with
    | Some d =>
        ∃ d', downloads (pipeline env strategies key w).1.2 !! key = Some d'
              ∧ same_submission d d'
    | None => (pipeline env strategies key w).1.2 = w
    end.
Proof.
  intros Hall.
  destruct (pipeline_job_writes env strategies key w Hall) as (us & -> & Hus).
  split.
  - intros other Hne. by apply apply_updates_other.
  - destruct (downloads w !! key) as [d|] eqn:Hd.
    + exists (foldl spread d us). split; [by apply apply_updates_lookup|].
      apply foldl_job_writes; [done | apply same_submission_refl].
    + by apply apply_updates_missing.
Qed.

Lemma pipeline_touches_own_record_only_witness :
  downloads
    (pipeline env_third_succeeds
       (strategies_of env_third_succeeds "job-1" "u" "mp4" "Sample clip")
       "job-1" sample_world).1.2 !! "job-2"
  = downloads sample_world !! "job-2".
Proof.
  apply (proj1 (pipeline_touches_own_record_only env_third_succeeds
                  (strategies_of env_third_succeeds "job-1" "u" "mp4" "Sample clip")
                  "job-1" sample_world (strategies_of_contract _ _ _ _ _))).
  discriminate.
Defined.

(** ** The paths the executors record *)












(** ** Progress *)



(** ** File names *)

Lemma word_not_whitespace c : is_word c = true → is_whitespace c = false.
Proof. by destruct c as [[] [] [] [] [] [] [] []]. Qed.

Lemma hyphen_code c : (nat_of_ascii c =? 45)%nat = true → c = "-"%char.
Proof.
  intros H. apply Nat.eqb_eq in H.
  rewrite <- (ascii_nat_embedding c), H. reflexivity.
Qed.

Lemma file_safe_not_whitespace c : file_safe c → is_whitespace c = false.
Proof. intros [H| ->]; [by apply word_not_whitespace | reflexivity]. Qed.

Lemma file_safe_kept c :
  file_safe c → is_word c || is_whitespace c || (nat_of_ascii c =? 45)%nat = true.
Proof. intros [-> | ->]; reflexivity. Qed.

Lemma underscore_runs_safe s : ∀ in_run,
  Forall (λ c, file_safe c ∨ is_whitespace c = true) (list_ascii_of_string s) →
  Forall file_safe (list_ascii_of_string (underscore_runs in_run s)).
Proof.
  induction s as [|c s IH]; intros in_run Hs; simpl in *; [constructor|].
  apply Forall_cons in Hs as [Hc Hs].
  destruct (is_whitespace c) eqn:Hspace.
  - destruct in_run; simpl; [by apply IH|].
    constructor; [by left | by apply IH].
  - simpl. constructor; [|by apply IH].
    destruct Hc as [Hc|Hc]; [done | congruence].
Qed.

Lemma strip_special_kept s :
  Forall (λ c, file_safe c ∨ is_whitespace c = true)
    (list_ascii_of_string (strip_special s)).
Proof.
  induction s as [|c s IH]; simpl; [constructor|].
  destruct (is_word c) eqn:Hword; simpl.
  { constructor; [left; by left | done]. }
  destruct (is_whitespace c) eqn:Hspace; simpl.
  { constructor; [by right | done]. }
  destruct (nat_of_ascii c =? 45)%nat eqn:Hhyphen; simpl; [|done].
  constructor; [|done]. left. right. by apply hyphen_code.
Qed.

Lemma safe_is_fixed s :
  Forall file_safe (list_ascii_of_string s) →
  strip_special s = s ∧ ∀ in_run, underscore_runs in_run s = s.
Proof.
  induction s as [|c s IH]; simpl; [done|].
  intros Hs. apply Forall_cons in Hs as [Hc Hs].
  destruct (IH Hs) as [Hstrip Hruns].
  rewrite (file_safe_kept c Hc), (file_safe_not_whitespace c Hc), Hstrip.
  split; [done|]. intros in_run. by rewrite Hruns.
Qed.

Lemma strip_special_length s :
  (String.length (strip_special s) ≤ String.length s)%nat.
Proof.
  induction s as [|c s IH]; simpl; [done|].
  destruct (is_word c || is_whitespace c || (nat_of_ascii c =? 45)%nat); simpl; lia.
Qed.

Lemma underscore_runs_length s : ∀ in_run,
  (String.length (underscore_runs in_run s) ≤ String.length s)%nat.
Proof.
  induction s as [|c s IH]; intros in_run; simpl; [done|].
  pose proof (IH true). pose proof (IH false).
  destruct (is_whitespace c); [destruct in_run|]; simpl; lia.
Qed.

(** X20. A sanitized title is made of letters, digits, underscores and
    hyphens only, so it holds no separator, no dot and no blank; it is no
    longer than the title; and sanitizing it again changes nothing. *)
Theorem sanitizedTitle_is_file_safe (title : string) :
  Forall file_safe (list_ascii_of_string (sanitizedTitle title))
  ∧ (String.length (sanitizedTitle title) ≤ String.length title)%nat
  ∧ sanitizedTitle (sanitizedTitle title) = sanitizedTitle title.
Proof.
  assert (Hsafe : Forall file_safe (list_ascii_of_string (sanitizedTitle title)))
    by apply underscore_runs_safe, strip_special_kept.
  split; [done|]. split.
  - unfold sanitizedTitle.
    pose proof (underscore_runs_length (strip_special title) false).
    pose proof (strip_special_length title). lia.
  - destruct (safe_is_fixed _ Hsafe) as [Hstrip Hruns].
    unfold sanitizedTitle at 1. by rewrite Hstrip, Hruns.
Qed.






Lemma strip_special_removed s :
  Forall removed (list_ascii_of_string s) → strip_special s = "".
Proof.
  induction s as [|c s IH]; simpl; [done|].
  intros Hs. apply Forall_cons in Hs as [Hc Hs].
  unfold removed in Hc. rewrite Hc. by apply IH.
Qed.

Lemma prefix_empty s : String.prefix "" s = true.
Proof. by destruct s. Qed.

(** X22. A title without any letter, digit, underscore, hyphen or blank is
    sanitized to the empty string, and then every entry of the output
    directory that does not start with a dot counts as the output of the
    job. *)
Theorem blank_title_matches_every_file (title : string) (entries : list string) :
  Forall removed (list_ascii_of_string title) →
  sanitizedTitle title = ""
  ∧ matching_files (sanitizedTitle title) entries
    = filter (λ f, String.prefix "." f = false) entries.
Proof.
  intros Hremoved.
  assert (Hblank : sanitizedTitle title = "")
    by (unfold sanitizedTitle; by rewrite strip_special_removed).
  split; [done|]. rewrite Hblank. unfold matching_files.
  induction entries as [|f entries IH]; [done|].
  rewrite !filter_cons, IH, prefix_empty. simpl.
  destruct (String.prefix "." f); simpl; by repeat case_decide.
Qed.

Lemma blank_title_witness :
  sanitizedTitle "?!*" = ""
  ∧ matching_files (sanitizedTitle "?!*") ["other_job.mp4"; ".hidden"]
    = ["other_job.mp4"].
Proof.
  destruct (blank_title_matches_every_file "?!*" ["other_job.mp4"; ".hidden"])
    as [Hblank Hfiles].
  - repeat constructor.
  - split; [exact Hblank|]. rewrite Hfiles. reflexivity.
Defined.
